(** * Image-Compression: the [ImageCompressor] component

    A shallow embedding of [ImageCompressor] (a React component): the resize
    computation of [compressImage], the size estimate of its result, the
    reduction percentage of the summary, the download action, and the
    event-driven behaviour of [handleFileChange].

    Numbers.  The dimensions of an image, the size of a file and the length of
    a string are integers, modelled in [Z].  The source computes in binary64.
    In the resize computation and in the size estimate the quotient that
    [Math.round] rounds is taken as the exact rational in [Q]:
    [Math_round_div_margin] gives the margin by which the rounding of a
    quotient of two dimensions is the same in binary64, and a quotient by 4
    is exact there.  The reduction shown goes through three operations, and
    is modelled with the numbers of [Js]: each operation returns the binary64
    number nearest to its exact result, or a non-finite value. *)

From Stdlib Require Import ZArith QArith Qround Qabs Qpower String List Lia Lqa Bool.
From Stdlib Require Import Strings.Byte Relations.
From Stdlib Require Import DecimalString DecimalZ.
From Stdlib Require SpecFloat.
Import ListNotations.

Local Open Scope Z_scope.

(** ** JavaScript numbers *)

Module Js.

(** [Math.round]: the nearest integer, a tie going towards +infinity. *)
Definition Math_round (x : Q) : Z := Qfloor (x + (1 # 2))%Q.

(** A number: finite, or one of the three non-finite values.  A finite
    number is the rational it stands for; negative zero is not told from
    zero. *)
Inductive jsnum : Type :=
| Fin (q : Q)
| PosInf
| NegInf
| NaN.


(** An integer that a number holds exactly (a size, a length, a literal). *)
Definition of_Z (z : Z) : jsnum := Fin (inject_Z z).

(** The sign of a rational: [Lt], [Eq] or [Gt] against zero. *)
Definition Qsign (q : Q) : comparison := (q ?= 0)%Q.

(** *** Rounding to binary64 *)

(** For [x > 0], the exponent [e] with [2^e <= x < 2^(e+1)]. *)
Definition ilog2 (x : Q) : Z :=
  let e0 := Z.log2 (Qnum x) - Z.log2 (Z.pos (Qden x)) in
  if Qle_bool (2 ^ e0) x then e0 else e0 - 1.

(** The nearest integer, a tie going to the even one. *)
Definition rne (x : Q) : Z :=
  let f := Qfloor x in
  match (x - inject_Z f ?= 1 # 2)%Q with
  | Lt => f
  | Gt => f + 1
  | Eq => if Z.even f then f else f + 1
  end.

(** The binary64 number nearest to [x], a tie going to the even mantissa:
    53 bits of mantissa at the exponent of [x], the exponent not below
    -1022 (where the subnormal numbers start), and an infinity from
    [2^1024] on.  This is how IEEE 754 defines the result of an operation
    from its exact result. *)
Definition fl (x : Q) : jsnum :=
  let a := Qabs x in
  let e := Z.max (ilog2 a) (-1022) in
  let u := (2 ^ (e - 52))%Q in
  let y := (inject_Z (rne (a / u)) * u)%Q in
  if Qle_bool (2 ^ 1024) y
  then (if Qle_bool 0 x then PosInf else NegInf)
  else Fin (Qred (if Qle_bool 0 x then y else - y)).

(** [2^-53], the relative error of one operation at most, and [2^-1075],
    its absolute error among the subnormal numbers. *)
Definition epsilon : Q := 1 # 9007199254740992.
Definition tiny : Q := 2 ^ (-1075).

(** *** The operations *)

(** [x / y], for a divisor that is not negative zero (every divisor of the
    component is a size or a dimension). *)
Definition div (x y : jsnum) : jsnum :=
  match x, y with
  | NaN, _ | _, NaN => NaN
  | Fin a, Fin b =>
      match Qsign b with
      | Eq => match Qsign a with Eq => NaN | Gt => PosInf | Lt => NegInf end
      | _ => fl (a / b)
      end
  | Fin _, (PosInf | NegInf) => Fin 0
  | (PosInf | NegInf), (PosInf | NegInf) => NaN
  | PosInf, Fin b => match Qsign b with Lt => NegInf | _ => PosInf end
  | NegInf, Fin b => match Qsign b with Lt => PosInf | _ => NegInf end
  end.

Definition neg (x : jsnum) : jsnum :=
  match x with
  | Fin a => Fin (- a)
  | PosInf => NegInf
  | NegInf => PosInf
  | NaN => NaN
  end.

Definition add (x y : jsnum) : jsnum :=
  match x, y with
  | NaN, _ | _, NaN => NaN
  | Fin a, Fin b => fl (a + b)
  | PosInf, NegInf | NegInf, PosInf => NaN
  | PosInf, _ | _, PosInf => PosInf
  | NegInf, _ | _, NegInf => NegInf
  end.

Definition sub (x y : jsnum) : jsnum :=
  match x, y with
  | Fin a, Fin b => fl (a - b)
  | _, _ => add x (neg y)
  end.

Definition mul (x y : jsnum) : jsnum :=
  match x, y with
  | NaN, _ | _, NaN => NaN
  | Fin a, Fin b => fl (a * b)
  | Fin a, PosInf | PosInf, Fin a =>
      match Qsign a with Eq => NaN | Gt => PosInf | Lt => NegInf end
  | Fin a, NegInf | NegInf, Fin a =>
      match Qsign a with Eq => NaN | Gt => NegInf | Lt => PosInf end
  | PosInf, PosInf | NegInf, NegInf => PosInf
  | PosInf, NegInf | NegInf, PosInf => NegInf
  end.

(** [Math.round] on a number: the non-finite values are returned as they
    are. *)
Definition round (x : jsnum) : jsnum :=
  match x with
  | Fin a => of_Z (Math_round a)
  | _ => x
  end.

(** *** The same three operations in the Standard Library's IEEE 754

    [SpecFloat] has the operations of binary64 on mantissas and exponents;
    they are what [fl] is checked against on given inputs. *)

Definition of_spec_float (f : SpecFloat.spec_float) : jsnum :=
  match f with
  | SpecFloat.S754_zero _ => Fin 0
  | SpecFloat.S754_infinity s => if s then NegInf else PosInf
  | SpecFloat.S754_nan => NaN
  | SpecFloat.S754_finite s m e =>
      Fin (Qred ((if s then -1 else 1) * inject_Z (Z.pos m) * 2 ^ e))
  end.

Definition spec_float_of_Z (z : Z) : SpecFloat.spec_float :=
  SpecFloat.binary_normalize 53 1024 z 0 false.

(** [m * 2^e / n] and [m * 2^e * n] with the operations of [SpecFloat]. *)
Definition spec_float_quotient (m e n : Z) : jsnum :=
  of_spec_float
    (SpecFloat.SFdiv 53 1024
       (SpecFloat.binary_normalize 53 1024 m e false) (spec_float_of_Z n)).

Definition spec_float_product (m e n : Z) : jsnum :=
  of_spec_float
    (SpecFloat.SFmul 53 1024
       (SpecFloat.binary_normalize 53 1024 m e false) (spec_float_of_Z n)).

(** [(1 - c / o) * 100] with the operations of [SpecFloat]. *)
Definition spec_float_percentage (c o : Z) : jsnum :=
  of_spec_float
    (SpecFloat.SFmul 53 1024
       (SpecFloat.SFsub 53 1024 (spec_float_of_Z 1)
          (SpecFloat.SFdiv 53 1024 (spec_float_of_Z c) (spec_float_of_Z o)))
       (spec_float_of_Z 100)).

End Js.

(** ** The resize computation (lines 29-44 of [compressImage]) *)

Definition maxWidth : Z := 1200.
Definition maxHeight : Z := 1200.

(** The new [(width, height)] from [img.width] and [img.height]. *)
Definition resize (img_width img_height : Z) : Z * Z :=
  let width := img_width in
  let height := img_height in
  if width >? height then
    if width >? maxWidth then
      let height := Js.Math_round (inject_Z (height * maxWidth) / inject_Z width) in
      let width := maxWidth in
      (width, height)
    else (width, height)
  else
    if height >? maxHeight then
      let width := Js.Math_round (inject_Z (width * maxHeight) / inject_Z height) in
      let height := maxHeight in
      (width, height)
    else (width, height).

(** ** Files, images, canvases *)

Module File.

(** A [File]: its name and its bytes. *)
Record t : Type := mk { name : string; contents : list Byte.byte }.

(** [file.size]: the number of bytes of the file. *)
Definition size (file : t) : Z := Z.of_nat (List.length (contents file)).

Definition eq_dec (a b : t) : {a = b} + {a <> b}.
Proof.
  decide equality.
  - apply list_eq_dec, Byte.byte_eq_dec.
  - apply string_dec.
Defined.

End File.

(** A loaded [Image] element: its source and its dimensions. *)
Record Image : Type := {
  img_src : string;
  img_width : Z;
  img_height : Z
}.

(** A canvas: its dimensions and what [drawImage(img, 0, 0, w, h)] drew. *)
Record Canvas : Type := {
  canvas_width : Z;
  canvas_height : Z;
  canvas_drawn : option (Image * (Z * Z))
}.

(** What the browser does for the component. *)
Class Platform : Type := {
  (** [reader.readAsDataURL(file)]: the data URL handed to [reader.onload];
      [None] when the read fails, and [onload] is never called. *)
  readAsDataURL : File.t -> option string;
  (** Setting [img.src]: the dimensions of the decoded image when [img.onload]
      is called; [None] when the source does not decode, and [onload] is
      never called. *)
  decode : string -> option (Z * Z);
  (** [canvas.toDataURL('image/jpeg', 0.7)]. *)
  toDataURL : Canvas -> string
}.

(** ** The result of a compression *)

Record CompressedImage : Type := {
  originalSize : Z;
  compressedSize : Z;
  compressedDataUrl : string;
  name : string
}.

(** [s.length] of a string of one-byte characters. *)
Definition str_length (s : string) : Z := Z.of_nat (String.length s).

(** The body of [img.onload] (lines 24-60): the value that resolves the
    promise of [compressImage(file)]. *)
Definition img_onload `{Platform} (file : File.t) (img : Image) : CompressedImage :=
  let '(width, height) := resize (img_width img) (img_height img) in
  let canvas := {| canvas_width := width;
                   canvas_height := height;
                   canvas_drawn := Some (img, (width, height)) |} in
  let compressedDataUrl := toDataURL canvas in
  {| originalSize := File.size file;
     compressedSize :=
       Js.Math_round (inject_Z (str_length compressedDataUrl * 3) / inject_Z 4);
     compressedDataUrl := compressedDataUrl;
     name := File.name file |}.

(** The value the promise of [compressImage(file)] is resolved with; [None]
    when one of the two [onload] callbacks is never called.  The executor
    has no [reject]. *)
Definition compressImage `{Platform} (file : File.t) : option CompressedImage :=
  match readAsDataURL file with
  | None => None
  | Some src =>
      match decode src with
      | None => None
      | Some (w, h) =>
          Some (img_onload file {| img_src := src; img_width := w; img_height := h |})
      end
  end.

(** ** The state of the component *)

Record State : Type := {
  image : option CompressedImage;
  loading : bool;
  console : list string
}.

Definition setImage (i : CompressedImage) (s : State) : State :=
  {| image := Some i; loading := loading s; console := console s |}.

Definition setLoading (b : bool) (s : State) : State :=
  {| image := image s; loading := b; console := console s |}.

Definition console_error (msg : string) (s : State) : State :=
  {| image := image s; loading := loading s; console := console s ++ [msg] |}.

(** How an awaited promise settles. *)
Inductive Settled : Type :=
| Fulfilled (compressed : CompressedImage)
| Rejected (error : string).

(** A call of [handleFileChange] suspended at its [await]: the file, and
    which callback its promise waits for. *)
Inductive Op : Type :=
| Reading (file : File.t)
| Decoding (file : File.t) (src : string).

Definition op_file (o : Op) : File.t :=
  match o with Reading f | Decoding f _ => f end.

(** The download the browser was asked for: [link.href], [link.download]. *)
Record Download : Type := {
  href : string;
  download : string
}.

Record World : Type := {
  ui : State;
  pending : list Op;
  downloads : list Download
}.

(** [event.target.files?.[0]]: the list may be absent or empty. *)
Definition first_file (files : option (list File.t)) : option File.t :=
  match files with
  | None => None
  | Some l => nth_error l 0
  end.

(** [handleFileChange] up to its [await] (lines 65-71). *)
Definition handleFileChange (files : option (list File.t)) (w : World) : World :=
  match first_file files with
  | None => w
  | Some file =>
      {| ui := setLoading true (ui w);
         pending := pending w ++ [Reading file];
         downloads := downloads w |}
  end.

(** [handleFileChange] from its [await] on (lines 71-76), when the promise
    has settled. *)
Definition handleFileChange_resume (r : Settled) (s : State) : State :=
  let s :=
    match r with
    | Fulfilled compressed => setImage compressed s
    | Rejected error => console_error ("Error compressing image: " ++ error) s
    end in
  setLoading false s.

(** [handleDownload] (lines 79-88): the download asked for, if any. *)
Definition handleDownload (s : State) : option Download :=
  match image s with
  | None => None
  | Some image =>
      Some {| href := compressedDataUrl image;
              download := "compressed-" ++ name image |}
  end.

Definition click_download (w : World) : World :=
  match handleDownload (ui w) with
  | None => w
  | Some d =>
      {| ui := ui w; pending := pending w; downloads := downloads w ++ [d] |}
  end.

(** The callbacks of the browser: [reader.onload] moves an operation to the
    decoding of its data URL, [img.onload] resolves its promise and resumes
    the handler.  A failed read or decode calls nothing. *)
Inductive callback `{Platform} : World -> World -> Prop :=
| reader_onload w l1 file l2 src :
    pending w = l1 ++ Reading file :: l2 ->
    readAsDataURL file = Some src ->
    callback w {| ui := ui w;
                  pending := l1 ++ Decoding file src :: l2;
                  downloads := downloads w |}
| image_onload w l1 file src l2 width height :
    pending w = l1 ++ Decoding file src :: l2 ->
    decode src = Some (width, height) ->
    let img := {| img_src := src; img_width := width; img_height := height |} in
    callback w {| ui := handleFileChange_resume
                          (Fulfilled (img_onload file img)) (ui w);
                  pending := l1 ++ l2;
                  downloads := downloads w |}.

(** One turn of the event loop: a callback, or an action of the user. *)
Inductive step `{Platform} : World -> World -> Prop :=
| step_callback w w' : callback w w' -> step w w'
| step_change files w : step w (handleFileChange files w)
| step_download w : step w (click_download w).

(** A file whose data URL, if it is read at all, does not decode. *)
Definition undecodable `{Platform} (file : File.t) : Prop :=
  forall src, readAsDataURL file = Some src -> decode src = None.

(** The suspended calls that wait on [file]. *)
Definition waits_on (file : File.t) (o : Op) : bool :=
  if File.eq_dec (op_file o) file then true else false.

Definition waiting (file : File.t) (l : list Op) : nat :=
  List.length (filter (waits_on file) l).

(** An operation that decodes a data URL got it from reading its file. *)
Definition op_ok `{Platform} (o : Op) : Prop :=
  match o with
  | Reading _ => True
  | Decoding file src => readAsDataURL file = Some src
  end.

Definition World_ok `{Platform} (w : World) : Prop := Forall op_ok (pending w).

(** The component when it is mounted: [useState(null)], [useState(false)]. *)
Definition initial : World :=
  {| ui := {| image := None; loading := false; console := [] |};
     pending := [];
     downloads := [] |}.

(** Any number of turns of the event loop. *)
Definition steps `{Platform} : World -> World -> Prop :=
  clos_refl_trans_1n World step.

Definition callbacks `{Platform} : World -> World -> Prop :=
  clos_refl_trans_1n World callback.

(** What holds of the result displayed and of the downloads asked for. *)
Definition result_of_a_file `{Platform} (r : CompressedImage) : Prop :=
  exists file, compressImage file = Some r.

Definition download_of_a_file `{Platform} (d : Download) : Prop :=
  exists file r,
    compressImage file = Some r
    /\ d = {| href := compressedDataUrl r;
              download := "compressed-" ++ File.name file |}.

Definition World_sound `{Platform} (w : World) : Prop :=
  World_ok w
  /\ (forall r, image (ui w) = Some r -> result_of_a_file r)
  /\ Forall download_of_a_file (downloads w).

(** ** The summary *)

(** The reduction shown:
    [Math.round((1 - image.compressedSize / image.originalSize) * 100)],
    the quotient, the difference and the product each rounded to binary64.
    The two sizes are integers that a number holds exactly. *)
Definition reduction (image : CompressedImage) : Js.jsnum :=
  Js.round
    (Js.mul
       (Js.sub (Js.of_Z 1)
               (Js.div (Js.of_Z (compressedSize image)) (Js.of_Z (originalSize image))))
       (Js.of_Z 100)).

(** The same expression over the rationals, every operation exact: what
    the percentage is before any rounding. *)
Definition exact_percentage (image : CompressedImage) : Q :=
  ((1 - inject_Z (compressedSize image) / inject_Z (originalSize image)) * 100)%Q.

(** The largest integer up to which a number holds every integer:
    [Number.MAX_SAFE_INTEGER]. *)
Definition MAX_SAFE_INTEGER : Z := 9007199254740991.

(** ** Sizes as text: [formatSize] (lines 90-94) *)

(** The decimal digits of an integer, as [String(n)] writes them. *)
Definition string_of_Z (n : Z) : string := NilZero.string_of_int (Z.to_int n).

(** The character of a digit, and a number below 100 on two digits. *)
Definition digit (d : Z) : Ascii.ascii := Ascii.ascii_of_nat (48 + Z.to_nat d).

Definition two_digits (m : Z) : string :=
  String (digit (m / 10)) (String (digit (m mod 10)) EmptyString).

(** The hundredths that [x.toFixed(2)] writes for [x >= 0]: the integer [n]
    with [n / 100] nearest to [x], the larger one of two. *)
Definition hundredths (x : Q) : Z := Qfloor (x * 100 + (1 # 2))%Q.

(** [x.toFixed(2)] for a finite [x] below [10^21]: the sign, taken from [x]
    before it is rounded, the integer part, a point, two decimals. *)
Definition toFixed2 (x : Q) : string :=
  let s := if Qlt_le_dec x 0 then "-"%string else ""%string in
  let n := hundredths (Qabs x) in
  (s ++ string_of_Z (n / 100) ++ "." ++ two_digits (n mod 100))%string.

(** [formatSize(bytes)] for an integer number of bytes.  The two divisors
    are powers of two, so both quotients are exact in the source too. *)
Definition formatSize (bytes : Z) : string :=
  if bytes <? 1024 then (string_of_Z bytes ++ " B")%string
  else if bytes <? 1024 * 1024
       then (toFixed2 (inject_Z bytes / inject_Z 1024) ++ " KB")%string
       else (toFixed2 (inject_Z bytes / inject_Z (1024 * 1024)) ++ " MB")%string.

(** ** What is rendered (lines 96-168) *)

(** A number as text, for the integers and the non-finite values that
    [Math.round] returns. *)
Definition number_text (x : Js.jsnum) : string :=
  match x with
  | Js.Fin q => string_of_Z (Qfloor q)
  | Js.PosInf => "Infinity"
  | Js.NegInf => "-Infinity"
  | Js.NaN => "NaN"
  end.

(** The block under [image &&]: the three figures, the source of the
    preview, and the button, whose [onClick] is [handleDownload]. *)
Record Summary : Type := {
  original_text : string;
  compressed_text : string;
  reduction_text : string;
  preview_src : string
}.

(** The parts of the page that depend on the state: the text in the upload
    box, and the summary when there is a result. *)
Record View : Type := {
  label : string;
  summary : option Summary
}.

Definition render (s : State) : View :=
  {| label := if loading s then "Processing..." else "Click to upload an image";
     summary :=
       match image s with
       | None => None
       | Some image =>
           Some {| original_text := formatSize (originalSize image);
                   compressed_text := formatSize (compressedSize image);
                   reduction_text := number_text (reduction image) ++ "%";
                   preview_src := compressedDataUrl image |}
       end |}.

(** ** A browser to run the component on

    Files are read as [data:] followed by their name; a URL of a [.png] or a
    [.jpg] decodes to 2400 x 1200, nothing else decodes; every canvas is
    encoded to the same short URL. *)

Module Sample.

Definition ends_with (suffix s : string) : bool :=
  let n := String.length s in
  let k := String.length suffix in
  (k <=? n)%nat && String.eqb (substring (n - k) k s) suffix.

Definition browser : Platform :=
  {| readAsDataURL := fun file => Some ("data:" ++ File.name file)%string;
     decode := fun src =>
       if ends_with ".png" src || ends_with ".jpg" src
       then Some (2400, 1200) else None;
     toDataURL := fun _ => "data:image/jpeg;base64,/9j/4AAQSkZJRg=="%string |}.

Definition photo : File.t :=
  File.mk "photo.png" [x89; x50; x4e; x47; x0d; x0a; x1a; x0a]%byte.

Definition notes : File.t :=
  File.mk "notes.txt" [x68; x65; x6c; x6c; x6f]%byte.

Definition cat : File.t :=
  File.mk "cat.jpg" [xff; xd8; xff; xe0]%byte.

(** What the two pictures are compressed to. *)
Definition photo_result : CompressedImage :=
  @img_onload browser photo
    {| img_src := "data:photo.png"; img_width := 2400; img_height := 1200 |}.

Definition cat_result : CompressedImage :=
  @img_onload browser cat
    {| img_src := "data:cat.jpg"; img_width := 2400; img_height := 1200 |}.

(** The page with a result on it and nothing pending. *)
Definition showing (r : CompressedImage) : World :=
  {| ui := {| image := Some r; loading := false; console := [] |};
     pending := [];
     downloads := [] |}.

End Sample.

(** ** Rounding a quotient of integers *)

Section Rounding.

(** [Math.round(a / b)] for integers [a] and [b > 0], in integer arithmetic:
    the floor of [(2a + b) / 2b]. *)
Lemma Math_round_div (a b : Z) :
  0 < b ->
  Js.Math_round (inject_Z a / inject_Z b) = (2 * a + b) / (2 * b).
Proof.
  intros Hb. destruct b as [|p|p]; try lia.
  unfold Js.Math_round, Qdiv, Qinv, Qmult, Qplus, Qfloor, inject_Z; cbn -[Z.mul Z.div Z.add].
  f_equal; lia.
Qed.

(** The exact quotient is either the tie [r - 1/2] itself or at least
    [1/2b] inside the interval that is rounded to [r].  A dimension [b] of an
    image is far below [2^40], so the quotient of the two integers computed
    in binary64, which is off by less than that margin, is rounded to the
    same integer as the exact one. *)
Lemma Math_round_div_margin (a b : Z) :
  0 < b ->
  let r := Js.Math_round (inject_Z a / inject_Z b) in
  2 * a = (2 * r - 1) * b
  \/ (2 * r - 1) * b + 1 <= 2 * a <= (2 * r + 1) * b - 1.
Proof.
  intros Hb r. subst r. rewrite (Math_round_div a b Hb).
  pose proof (Z.div_mod (2 * a + b) (2 * b) ltac:(lia)) as Hdm.
  pose proof (Z.mod_pos_bound (2 * a + b) (2 * b) ltac:(lia)) as Hm.
  nia.
Qed.

End Rounding.

(** ** The resize computation: its three cases *)

Section Resize.

(** The rounded quotient of a half-open range: for [0 < b], the integer
    [Math.round(a / b)] is the one [r] with [2rb - b <= 2a < 2rb + b]. *)
Lemma Math_round_div_bounds (a b : Z) :
  0 < b ->
  let r := Js.Math_round (inject_Z a / inject_Z b) in
  2 * r * b - b <= 2 * a < 2 * r * b + b.
Proof.
  intros Hb r. subst r. rewrite (Math_round_div a b Hb).
  pose proof (Z.div_mod (2 * a + b) (2 * b) ltac:(lia)) as Hdm.
  pose proof (Z.mod_pos_bound (2 * a + b) (2 * b) ltac:(lia)) as Hm.
  nia.
Qed.

(** A quotient that is an integer is rounded to itself. *)
Lemma Math_round_exact (k b : Z) :
  0 < b -> Js.Math_round (inject_Z (k * b) / inject_Z b) = k.
Proof.
  intros Hb. pose proof (Math_round_div_bounds (k * b) b Hb) as Hr.
  cbv zeta in Hr. nia.
Qed.

(** Rounding is monotone in the numerator. *)
Lemma Math_round_div_le (a a' b : Z) :
  0 < b -> a <= a' ->
  Js.Math_round (inject_Z a / inject_Z b) <= Js.Math_round (inject_Z a' / inject_Z b).
Proof.
  intros Hb Ha. rewrite !Math_round_div by exact Hb.
  apply Z.div_le_mono; lia.
Qed.

(** C1. A source wider than 1200 and at least as wide as it is high is
    resized to width 1200 and height [Math.round(H * 1200 / W)]; the square
    source goes through the other branch of the code and gets the same
    result. *)
Theorem resize_landscape_or_square (W H : Z) :
  W > 1200 -> W >= H ->
  resize W H = (1200, Js.Math_round (inject_Z (H * 1200) / inject_Z W)).
Proof.
  intros HW HWH. unfold resize, maxWidth, maxHeight.
  destruct (W >? H) eqn:Egt.
  - assert (E : (W >? 1200) = true) by (apply Z.gtb_lt; lia).
    rewrite E. reflexivity.
  - assert (HEq : H = W) by (rewrite Z.gtb_ltb in Egt; apply Z.ltb_ge in Egt; lia).
    subst H.
    assert (E : (W >? 1200) = true) by (apply Z.gtb_lt; lia).
    rewrite E.
    replace (W * 1200) with (1200 * W) by lia.
    rewrite Math_round_exact by lia. reflexivity.
Qed.

(** C2. A source higher than 1200 and higher than it is wide is resized to
    height 1200 and width [Math.round(W * 1200 / H)]. *)
Theorem resize_portrait (W H : Z) :
  H > 1200 -> H > W ->
  resize W H = (Js.Math_round (inject_Z (W * 1200) / inject_Z H), 1200).
Proof.
  intros HH HHW. unfold resize, maxWidth, maxHeight.
  assert (E1 : (W >? H) = false) by (rewrite Z.gtb_ltb; apply Z.ltb_ge; lia).
  assert (E2 : (H >? 1200) = true) by (apply Z.gtb_lt; lia).
  rewrite E1, E2. reflexivity.
Qed.

(** C3. A source of positive dimensions, both at most 1200, is left as it
    is: nothing is scaled up. *)
Theorem resize_within_caps (W H : Z) :
  0 < W -> 0 < H -> W <= 1200 -> H <= 1200 ->
  resize W H = (W, H).
Proof.
  intros _ _ HW HH. unfold resize, maxWidth, maxHeight.
  assert (E1 : (W >? 1200) = false) by (rewrite Z.gtb_ltb; apply Z.ltb_ge; lia).
  assert (E2 : (H >? 1200) = false) by (rewrite Z.gtb_ltb; apply Z.ltb_ge; lia).
  rewrite E1, E2. destruct (W >? H); reflexivity.
Qed.

(** The branch of [resize] taken, as a case analysis. *)
Lemma resize_cases (W H : Z) :
  (W > H /\ W > 1200 /\
     resize W H = (1200, Js.Math_round (inject_Z (H * 1200) / inject_Z W)))
  \/ (W <= H /\ H > 1200 /\
     resize W H = (Js.Math_round (inject_Z (W * 1200) / inject_Z H), 1200))
  \/ (W <= 1200 /\ H <= 1200 /\ resize W H = (W, H)).
Proof.
  unfold resize, maxWidth, maxHeight.
  destruct (W >? H) eqn:E1.
  - apply Z.gtb_lt in E1. destruct (W >? 1200) eqn:E2.
    + apply Z.gtb_lt in E2. left. repeat split; lia.
    + rewrite Z.gtb_ltb in E2. apply Z.ltb_ge in E2.
      right; right. repeat split; lia.
  - rewrite Z.gtb_ltb in E1. apply Z.ltb_ge in E1.
    destruct (H >? 1200) eqn:E2.
    + apply Z.gtb_lt in E2. right; left. repeat split; lia.
    + rewrite Z.gtb_ltb in E2. apply Z.ltb_ge in E2.
      right; right. repeat split; lia.
Qed.

(** C5. For positive dimensions both results are at most 1200: in the branch
    taken the dimension that is scaled is at most the one that is capped. *)
Theorem resize_capped (W H : Z) :
  0 < W -> 0 < H ->
  fst (resize W H) <= 1200 /\ snd (resize W H) <= 1200.
Proof.
  intros HW HH.
  destruct (resize_cases W H) as [(Hgt & Hbig & ->) | [(Hle & Hbig & ->) | (H1 & H2 & ->)]];
    cbn [fst snd].
  - split; [lia|].
    pose proof (Math_round_div_bounds (H * 1200) W HW) as Hr. cbv zeta in Hr. nia.
  - split; [|lia].
    pose proof (Math_round_div_bounds (W * 1200) H HH) as Hr. cbv zeta in Hr. nia.
  - split; assumption.
Qed.

(** The rounded quotient is within half a unit of the exact one. *)
Lemma Math_round_div_error (a c b : Z) :
  0 < b ->
  (Qabs (inject_Z (Js.Math_round (inject_Z (a * c) / inject_Z b))
         - inject_Z a * inject_Z c / inject_Z b) <= 1 # 2)%Q.
Proof.
  intros Hb.
  pose proof (Math_round_div_bounds (a * c) b Hb) as Hr. cbv zeta in Hr.
  set (r := Js.Math_round (inject_Z (a * c) / inject_Z b)) in *.
  clearbody r. destruct b as [|p|p]; try lia.
  apply Qabs_Qle_condition.
  unfold Qle, Qminus, Qplus, Qopp, Qdiv, Qmult, Qinv, inject_Z;
    cbn -[Z.mul Z.add Z.opp]; rewrite ?Pos2Z.inj_mul; split; nia.
Qed.

Lemma Qabs_cross (n d k l : Z) :
  0 < d -> 0 < l -> Z.abs (n * l) <= k * d ->
  (Qabs (inject_Z n / inject_Z d) <= inject_Z k / inject_Z l)%Q.
Proof.
  intros Hd Hl Hn. destruct d as [|d|d]; try lia. destruct l as [|l|l]; try lia.
  apply Qabs_Qle_condition.
  unfold Qle, Qopp, Qdiv, Qmult, Qinv, inject_Z; cbn -[Z.mul Z.opp].
  rewrite ?Pos.mul_1_l, ?Pos.mul_1_r, ?Z.mul_1_r.
  split; lia.
Qed.

(** A long side [a] and a short side [b] resized to [a'] and [b'], the
    short one within one unit of its exact proportional value: how far
    the ratios are then. *)
Lemma ratio_bounds (a b a' b' : Z) :
  0 < a -> 0 < b -> 0 < a' -> 0 <= b' ->
  Z.abs (b' * a - b * a') <= a ->
  (Qabs (inject_Z b' - inject_Z b * inject_Z a' / inject_Z a) <= 1)%Q
  /\ (Qabs (inject_Z b' / inject_Z a' - inject_Z b / inject_Z a)
      <= 1 / inject_Z a')%Q
  /\ (0 < b' ->
      (Qabs (inject_Z a' / inject_Z b' - inject_Z a / inject_Z b)
       <= inject_Z a / (inject_Z b * inject_Z b'))%Q).
Proof.
  intros Ha Hb Ha' Hb' Habs.
  assert (Qa : (0 < inject_Z a)%Q)
    by (change 0%Q with (inject_Z 0); rewrite <- Zlt_Qlt; lia).
  assert (Qb : (0 < inject_Z b)%Q)
    by (change 0%Q with (inject_Z 0); rewrite <- Zlt_Qlt; lia).
  assert (Qa' : (0 < inject_Z a')%Q)
    by (change 0%Q with (inject_Z 0); rewrite <- Zlt_Qlt; lia).
  split; [|split].
  - setoid_replace (inject_Z b' - inject_Z b * inject_Z a' / inject_Z a)%Q
      with (inject_Z (b' * a - b * a') / inject_Z a)%Q
      by (unfold Z.sub; rewrite inject_Z_plus, inject_Z_opp, !inject_Z_mult;
          field; lra).
    setoid_replace 1%Q with (inject_Z a / inject_Z a)%Q by (field; lra).
    apply Qabs_cross; try lia. rewrite Z.abs_mul, (Z.abs_eq a) by lia.
    apply Z.mul_le_mono_nonneg_r; lia.
  - setoid_replace (inject_Z b' / inject_Z a' - inject_Z b / inject_Z a)%Q
      with (inject_Z (b' * a - b * a') / inject_Z (a' * a))%Q
      by (unfold Z.sub; rewrite inject_Z_plus, inject_Z_opp, !inject_Z_mult;
          field; lra).
    setoid_replace (1 / inject_Z a')%Q with (inject_Z a / inject_Z (a' * a))%Q
      by (rewrite inject_Z_mult; field; lra).
    apply Qabs_cross; nia.
  - intros Hb'0.
    assert (Qb' : (0 < inject_Z b')%Q)
      by (change 0%Q with (inject_Z 0); rewrite <- Zlt_Qlt; lia).
    setoid_replace (inject_Z a' / inject_Z b' - inject_Z a / inject_Z b)%Q
      with (inject_Z (a' * b - a * b') / inject_Z (b' * b))%Q
      by (unfold Z.sub; rewrite inject_Z_plus, inject_Z_opp, !inject_Z_mult;
          field; lra).
    setoid_replace (inject_Z a / (inject_Z b * inject_Z b'))%Q
      with (inject_Z a / inject_Z (b' * b))%Q
      by (rewrite inject_Z_mult; field; lra).
    apply Qabs_cross; nia.
Qed.

(** C4. For positive dimensions the aspect ratio is kept up to the rounding
    of one dimension.  The longer side of the source (the width when
    [W > H], the height otherwise) becomes that side capped at 1200, which
    is positive; the other side is within one pixel of its exact
    proportional value; so the ratio of the shorter to the longer side is
    within [1 / 1200], or [1 /] the longer side, of that of the source, and
    [W' / H'] is as close to [W / H] as the statement says whenever the
    rounded side is not 0. *)
Theorem resize_aspect_ratio (W H : Z) :
  0 < W -> 0 < H ->
  let W' := fst (resize W H) in
  let H' := snd (resize W H) in
  (W > H ->
   W' = Z.min W 1200 /\ 0 < W'
   /\ (Qabs (inject_Z H' - inject_Z H * inject_Z W' / inject_Z W) <= 1)%Q
   /\ (Qabs (inject_Z H' / inject_Z W' - inject_Z H / inject_Z W)
       <= 1 / inject_Z W')%Q
   /\ (0 < H' ->
       (Qabs (inject_Z W' / inject_Z H' - inject_Z W / inject_Z H)
        <= inject_Z W / (inject_Z H * inject_Z H'))%Q))
  /\ (W <= H ->
   H' = Z.min H 1200 /\ 0 < H'
   /\ (Qabs (inject_Z W' - inject_Z W * inject_Z H' / inject_Z H) <= 1)%Q
   /\ (Qabs (inject_Z W' / inject_Z H' - inject_Z W / inject_Z H)
       <= 1 / inject_Z H')%Q
   /\ (0 < W' ->
       (Qabs (inject_Z H' / inject_Z W' - inject_Z H / inject_Z W)
        <= inject_Z H / (inject_Z W * inject_Z W'))%Q)).
Proof.
  intros HW HH W' H'. subst W' H'.
  destruct (resize_cases W H) as [(Hgt & Hbig & ->) | [(Hle & Hbig & ->) | (H1 & H2 & ->)]];
    cbn [fst snd]; split; intros Hbr; try lia.
  - pose proof (Math_round_div_bounds (H * 1200) W HW) as Hr. cbv zeta in Hr.
    set (h := Js.Math_round (inject_Z (H * 1200) / inject_Z W)) in *. clearbody h.
    split; [lia|]. split; [lia|].
    apply ratio_bounds; try lia; nia.
  - pose proof (Math_round_div_bounds (W * 1200) H HH) as Hr. cbv zeta in Hr.
    set (w := Js.Math_round (inject_Z (W * 1200) / inject_Z H)) in *. clearbody w.
    split; [lia|]. split; [lia|].
    apply ratio_bounds; try lia; nia.
  - split; [lia|]. split; [lia|].
    apply ratio_bounds; lia.
  - split; [lia|]. split; [lia|].
    apply ratio_bounds; lia.
Qed.

(** The ratio itself can be lost: a strip one pixel high gets height 0. *)
Example resize_thin_strip : resize 100000 1 = (1200, 0).
Proof. reflexivity. Qed.

Example resize_2400_1200 : resize 2400 1200 = (1200, 600).
Proof. reflexivity. Qed.

Example resize_800_2400 : resize 800 2400 = (400, 1200).
Proof. reflexivity. Qed.

Example resize_600_400 : resize 600 400 = (600, 400).
Proof. reflexivity. Qed.

End Resize.

(** ** The result of a successful compression *)

Section Result.

Context `{Platform}.

(** What [compressImage file] resolves with is the value built by
    [img.onload] from the file and some loaded image. *)
Lemma compressImage_Some (file : File.t) (r : CompressedImage) :
  compressImage file = Some r ->
  exists img, readAsDataURL file = Some (img_src img)
              /\ decode (img_src img) = Some (img_width img, img_height img)
              /\ r = img_onload file img.
Proof.
  unfold compressImage. intros Hc.
  destruct (readAsDataURL file) as [src|] eqn:Hread; [|discriminate].
  destruct (decode src) as [[w h]|] eqn:Hdec; [|discriminate].
  injection Hc as <-.
  exists {| img_src := src; img_width := w; img_height := h |}. auto.
Qed.

Lemma img_onload_fields (file : File.t) (img : Image) :
  let r := img_onload file img in
  originalSize r = File.size file
  /\ name r = File.name file
  /\ compressedSize r
     = Js.Math_round (inject_Z (str_length (compressedDataUrl r) * 3) / inject_Z 4).
Proof.
  unfold img_onload. destruct (resize (img_width img) (img_height img)) as [w h].
  cbn. auto.
Qed.

(** C6. The compressed size of a result is [Math.round(L * 3 / 4)] for the
    length [L] of its data URL, that is [(3L + 2) / 4] rounded down: it is
    computed from the text of the URL alone. *)
Theorem compressedSize_estimate (file : File.t) (r : CompressedImage) :
  compressImage file = Some r ->
  let L := str_length (compressedDataUrl r) in
  compressedSize r = Js.Math_round (inject_Z (L * 3) / inject_Z 4)
  /\ compressedSize r = (3 * L + 2) / 4.
Proof.
  intros Hc L. subst L.
  destruct (compressImage_Some file r Hc) as (img & _ & _ & ->).
  destruct (img_onload_fields file img) as (_ & _ & Hsize). cbv zeta in Hsize.
  split; [exact Hsize|].
  rewrite Hsize, Math_round_div by lia.
  generalize (str_length (compressedDataUrl (img_onload file img))). intros L.
  Z.to_euclidean_division_equations. lia.
Qed.

(** The estimate is never negative, whatever the URL. *)
Lemma compressedSize_nonneg (file : File.t) (r : CompressedImage) :
  compressImage file = Some r -> 0 <= compressedSize r.
Proof.
  intros Hc. destruct (compressImage_Some file r Hc) as (img & _ & _ & ->).
  destruct (img_onload_fields file img) as (_ & _ & Hsize). cbv zeta in Hsize.
  rewrite Hsize, Math_round_div by lia.
  unfold str_length. apply Z.div_pos; lia.
Qed.

(** C8. The result of a successful compression keeps the size in bytes and
    the name of the file, and the download of that result is named
    [compressed-] followed by that name, so with whatever extension the name
    ends in. *)
Theorem result_and_download_name (file : File.t) (r : CompressedImage) (s : State) :
  compressImage file = Some r ->
  image s = Some r ->
  originalSize r = Z.of_nat (List.length (File.contents file))
  /\ name r = File.name file
  /\ handleDownload s
     = Some {| href := compressedDataUrl r;
               download := "compressed-" ++ File.name file |}
  /\ forall stem ext d,
       File.name file = (stem ++ ext)%string ->
       handleDownload s = Some d ->
       download d = (("compressed-" ++ stem) ++ ext)%string.
Proof.
  intros Hc Hs.
  destruct (compressImage_Some file r Hc) as (img & _ & _ & ->).
  destruct (img_onload_fields file img) as (Hsize & Hname & _).
  cbv zeta in Hsize, Hname.
  assert (Hd : handleDownload s
               = Some {| href := compressedDataUrl (img_onload file img);
                         download := "compressed-" ++ File.name file |}).
  { unfold handleDownload. rewrite Hs, Hname. reflexivity. }
  repeat split; auto.
  intros stem ext d Hn Hd'. rewrite Hd in Hd'. injection Hd' as <-.
  cbn [download]. rewrite Hn. reflexivity.
Qed.

End Result.

(** ** Rounding to binary64 *)

Section Binary64.

Lemma rne_bounds (t : Q) :
  (t - (1 # 2) <= inject_Z (Js.rne t) <= t + (1 # 2))%Q.
Proof.
  unfold Js.rne.
  pose proof (Qfloor_le t) as Hlo. pose proof (Qlt_floor t) as Hhi.
  rewrite inject_Z_plus in Hhi. change (inject_Z 1) with 1%Q in Hhi.
  destruct (Qcompare_spec (t - inject_Z (Qfloor t)) (1 # 2)) as [E|E|E].
  - destruct (Z.even (Qfloor t)); rewrite ?inject_Z_plus;
      change (inject_Z 1) with 1%Q; lra.
  - lra.
  - rewrite inject_Z_plus. change (inject_Z 1) with 1%Q. lra.
Qed.

Lemma rne_nonneg (t : Q) : (0 <= t)%Q -> 0 <= Js.rne t.
Proof.
  intros Ht. unfold Js.rne.
  assert (H0 : 0 <= Qfloor t).
  { change 0 with (Qfloor 0). apply Qfloor_resp_le. exact Ht. }
  destruct (t - inject_Z (Qfloor t) ?= 1 # 2)%Q; [destruct (Z.even _)| |]; lia.
Qed.

Lemma two_pow_pos (e : Z) : (0 < 2 ^ e)%Q.
Proof. apply Qpower_0_lt. reflexivity. Qed.

Lemma two_pow_succ (e : Z) : (2 ^ (e + 1) == 2 * 2 ^ e)%Q.
Proof. rewrite Qpower_plus by discriminate. change (2 ^ 1)%Q with 2%Q. ring. Qed.

Lemma two_pow_Z (n : Z) : 0 <= n -> (2 ^ n == inject_Z (2 ^ n))%Q.
Proof.
  intros Hn. pattern n. apply natlike_ind; [reflexivity | | exact Hn].
  intros k Hk IH. unfold Z.succ. rewrite two_pow_succ, IH, Z.pow_add_r by lia.
  rewrite inject_Z_mult. change (2 ^ 1) with 2. ring.
Qed.

Lemma two_pow_le (a b : Z) : a <= b -> (2 ^ a <= 2 ^ b)%Q.
Proof. intros Hab. apply Qpower_le_compat_l; [exact Hab | discriminate]. Qed.

(** [ilog2] is the exponent of its argument. *)
Lemma ilog2_le (x : Q) : (0 < x)%Q -> (2 ^ Js.ilog2 x <= x)%Q.
Proof.
  intros Hx. unfold Js.ilog2.
  destruct (Qle_bool (2 ^ (Z.log2 (Qnum x) - Z.log2 (Z.pos (Qden x)))) x) eqn:E.
  - apply Qle_bool_iff. exact E.
  - destruct x as [n d]. cbn [Qnum Qden] in *.
    assert (Hn : 0 < n) by (unfold Qlt in Hx; cbn in Hx; lia).
    pose proof (Z.log2_spec n Hn) as [Hn1 _].
    pose proof (Z.log2_spec (Z.pos d) ltac:(lia)) as [_ Hd2].
    pose proof (Z.log2_nonneg n) as Ha. pose proof (Z.log2_nonneg (Z.pos d)) as Hb.
    set (a := Z.log2 n) in *. set (b := Z.log2 (Z.pos d)) in *.
    clearbody a b.
    replace (a - b - 1) with (a + - (b + 1)) by lia.
    rewrite Qpower_plus by discriminate. rewrite Qpower_opp.
    rewrite !two_pow_Z by lia.
    assert (Hpb : (0 < inject_Z (2 ^ (b + 1)))%Q).
    { rewrite <- two_pow_Z by lia. apply two_pow_pos. }
    apply Qle_shift_div_r; [exact Hpb|].
    unfold Qle, Qmult, inject_Z. cbn -[Z.pow Z.mul].
    rewrite Pos.mul_1_r. nia.
Qed.

Lemma ilog2_lt (x : Q) : (0 < x)%Q -> (x < 2 ^ (Js.ilog2 x + 1))%Q.
Proof.
  intros Hx. unfold Js.ilog2.
  destruct (Qle_bool (2 ^ (Z.log2 (Qnum x) - Z.log2 (Z.pos (Qden x)))) x) eqn:E.
  - destruct x as [n d]. cbn [Qnum Qden] in *.
    assert (Hn : 0 < n) by (unfold Qlt in Hx; cbn in Hx; lia).
    pose proof (Z.log2_spec n Hn) as [_ Hn2].
    pose proof (Z.log2_spec (Z.pos d) ltac:(lia)) as [Hd1 _].
    pose proof (Z.log2_nonneg n) as Ha. pose proof (Z.log2_nonneg (Z.pos d)) as Hb.
    set (a := Z.log2 n) in *. set (b := Z.log2 (Z.pos d)) in *.
    clearbody a b.
    replace (a - b + 1) with ((a + 1) + - b) by lia.
    rewrite Qpower_plus by discriminate. rewrite Qpower_opp.
    rewrite !two_pow_Z by lia.
    assert (Hpb : (0 < inject_Z (2 ^ b))%Q).
    { rewrite <- two_pow_Z by lia. apply two_pow_pos. }
    apply Qlt_shift_div_l; [exact Hpb|].
    unfold Qlt, Qmult, inject_Z. cbn -[Z.pow Z.mul].
    rewrite Pos.mul_1_r.
    assert (2 ^ Z.succ a = 2 ^ (a + 1)) by reflexivity. nia.
  - replace (Z.log2 (Qnum x) - Z.log2 (Z.pos (Qden x)) - 1 + 1)
      with (Z.log2 (Qnum x) - Z.log2 (Z.pos (Qden x))) by lia.
    apply Qnot_le_lt. intros Hle. apply Qle_bool_iff in Hle. congruence.
Qed.

Lemma tiny_small : (0 < Js.tiny /\ Js.tiny <= 1 # 18446744073709551616)%Q.
Proof.
  split; [apply two_pow_pos|].
  unfold Js.tiny. eapply Qle_trans; [apply (two_pow_le (-1075) (-64)); lia|].
  apply Qle_bool_iff. reflexivity.
Qed.

(** The rounded magnitude: within [a * 2^-53 + 2^-1075] of [a], and below
    the overflow threshold when [a] is. *)
Lemma fl_abs (a : Q) :
  (0 <= a)%Q -> (a <= 2 ^ 1023)%Q ->
  let e := Z.max (Js.ilog2 a) (-1022) in
  let u := (2 ^ (e - 52))%Q in
  let y := (inject_Z (Js.rne (a / u)) * u)%Q in
  (0 <= y
   /\ a - (a * Js.epsilon + Js.tiny) <= y <= a + (a * Js.epsilon + Js.tiny)
   /\ y < 2 ^ 1024
   /\ (a == 0 -> y == 0))%Q.
Proof.
  intros Ha Hmax e u y.
  assert (Hu : (0 < u)%Q) by apply two_pow_pos.
  pose proof (rne_bounds (a / u)) as [Hlo Hhi].
  assert (Hm : 0 <= Js.rne (a / u)).
  { apply rne_nonneg. apply Qle_shift_div_l; [exact Hu|]. lra. }
  assert (Hy0 : (0 <= y)%Q).
  { subst y. apply Qmult_le_0_compat; [|lra].
    change 0%Q with (inject_Z 0). rewrite <- Zle_Qle. exact Hm. }
  assert (Hylo : (a - u * (1 # 2) <= y)%Q).
  { subst y. setoid_replace (a - u * (1 # 2))%Q with ((a / u - (1 # 2)) * u)%Q
      by (field; lra).
    apply Qmult_le_compat_r; lra. }
  assert (Hyhi : (y <= a + u * (1 # 2))%Q).
  { subst y. setoid_replace (a + u * (1 # 2))%Q with ((a / u + (1 # 2)) * u)%Q
      by (field; lra).
    apply Qmult_le_compat_r; lra. }
  destruct tiny_small as [Heta0 _].
  assert (Hhalf : (a == 0 \/ u * (1 # 2) <= a * Js.epsilon + Js.tiny)%Q).
  { destruct (Qlt_le_dec 0 a) as [Hpos|Hle]; [right | left; lra].
    assert (Hu2 : (u * (1 # 2) == 2 ^ e * Js.epsilon)%Q).
    { subst u. replace (e - 52) with (e + -52) by lia.
      rewrite Qpower_plus by discriminate.
      assert (H52 : (2 ^ (-52) == 2 * Js.epsilon)%Q) by reflexivity.
      rewrite H52. ring. }
    rewrite Hu2. subst e.
    destruct (Z.max_spec (Js.ilog2 a) (-1022)) as [[Hlt ->]|[Hge ->]].
    - assert (He : (2 ^ (-1022) * Js.epsilon == Js.tiny)%Q) by reflexivity.
      rewrite He.
      assert (0 <= a * Js.epsilon)%Q by (unfold Js.epsilon; lra). lra.
    - pose proof (ilog2_le a Hpos) as Hl.
      assert (2 ^ Js.ilog2 a * Js.epsilon <= a * Js.epsilon)%Q
        by (unfold Js.epsilon; lra).
      lra. }
  split; [exact Hy0|].
  assert (Hbounds : (a - (a * Js.epsilon + Js.tiny) <= y
                     <= a + (a * Js.epsilon + Js.tiny))%Q).
  { destruct Hhalf as [Hz|Hh]; [|lra].
    assert (Hq : (a / u == 0)%Q) by (rewrite Hz; field; lra).
    assert (Hr : Js.rne (a / u) = 0).
    { set (t := (a / u)%Q) in *. clearbody t.
      assert (-1 < Js.rne t)
        by (rewrite Zlt_Qlt; change (inject_Z (-1)) with (-1)%Q; lra).
      assert (Js.rne t < 1)
        by (rewrite Zlt_Qlt; change (inject_Z 1) with 1%Q; lra).
      lia. }
    subst y. rewrite Hr. change (inject_Z 0) with 0%Q.
    unfold Js.epsilon. lra. }
  split; [exact Hbounds|].
  assert (Hzero : (a == 0 -> y == 0)%Q).
  { intros Hz.
    assert (Hq : (a / u == 0)%Q) by (rewrite Hz; field; lra).
    assert (Hr : Js.rne (a / u) = 0).
    { set (t := (a / u)%Q) in *. clearbody t.
      assert (-1 < Js.rne t)
        by (rewrite Zlt_Qlt; change (inject_Z (-1)) with (-1)%Q; lra).
      assert (Js.rne t < 1)
        by (rewrite Zlt_Qlt; change (inject_Z 1) with 1%Q; lra).
      lia. }
    subst y. rewrite Hr. change (inject_Z 0) with 0%Q. ring. }
  split; [|exact Hzero].
  assert (HP : (1 <= 2 ^ 1023 /\ 2 ^ 1024 == 2 * 2 ^ 1023)%Q).
  { split; [change 1%Q with (2 ^ 0)%Q; apply two_pow_le; lia|].
    apply (two_pow_succ 1023). }
  destruct HP as [HP1 HP2]. rewrite HP2.
  destruct tiny_small as [_ Heta1].
  set (P := (2 ^ 1023)%Q) in *. clearbody P.
  assert (a * Js.epsilon <= P * Js.epsilon)%Q by (unfold Js.epsilon; lra).
  unfold Js.epsilon in *. lra.
Qed.

(** One rounding: a number of magnitude at most [2^64] is rounded to a
    finite number of the same sign, off by at most [|x| * 2^-53 + 2^-1075]. *)
Lemma fl_small (x : Q) :
  (- (18446744073709551616) <= x <= 18446744073709551616)%Q ->
  exists y,
    Js.fl x = Js.Fin y
    /\ (0 <= x -> 0 <= y
        /\ x - (x * Js.epsilon + Js.tiny) <= y <= x + (x * Js.epsilon + Js.tiny))%Q
    /\ (x <= 0 -> y <= 0
        /\ x - (Js.tiny - x * Js.epsilon) <= y <= x + (Js.tiny - x * Js.epsilon))%Q.
Proof.
  intros [Hlo Hhi].
  assert (H64 : (18446744073709551616 <= 2 ^ 1023)%Q).
  { assert (E : (18446744073709551616 == 2 ^ 64)%Q) by reflexivity.
    rewrite E. apply two_pow_le. lia. }
  assert (Ha0 : (0 <= Qabs x)%Q) by apply Qabs_nonneg.
  assert (Ha1 : (Qabs x <= 2 ^ 1023)%Q).
  { eapply Qle_trans; [|exact H64]. apply Qabs_Qle_condition. split; assumption. }
  pose proof (fl_abs (Qabs x) Ha0 Ha1) as Hfl. cbv zeta in Hfl.
  destruct Hfl as (Hy0 & Hyb & Hov & Hzero).
  destruct tiny_small as [Ht0 _].
  unfold Js.fl.
  set (y := (inject_Z (Js.rne (Qabs x / 2 ^ (Z.max (Js.ilog2 (Qabs x)) (-1022) - 52)))
             * 2 ^ (Z.max (Js.ilog2 (Qabs x)) (-1022) - 52))%Q) in *.
  assert (Hno : Qle_bool (2 ^ 1024) y = false).
  { destruct (Qle_bool (2 ^ 1024) y) eqn:E; [|reflexivity].
    apply Qle_bool_iff in E. exfalso. apply (Qlt_not_le _ _ Hov). exact E. }
  rewrite Hno. clear Hno Hov. clearbody y.
  destruct (Qle_bool 0 x) eqn:Ex.
  - apply Qle_bool_iff in Ex.
    exists (Qred y). split; [reflexivity|].
    rewrite (Qabs_pos x Ex) in Hyb. rewrite Qred_correct.
    split; intros Hx; [split; [exact Hy0 | exact Hyb]|].
    assert (E0 : (x == 0)%Q) by lra.
    assert (Ey : (y == 0)%Q).
    { apply Hzero. rewrite E0. reflexivity. }
    unfold Js.epsilon in *. lra.
  - assert (Hneg : (x < 0)%Q).
    { apply Qnot_le_lt. intros Hle. apply Qle_bool_iff in Hle. congruence. }
    exists (Qred (- y)). split; [reflexivity|].
    rewrite (Qabs_neg x) in Hyb by lra. rewrite Qred_correct.
    split; intros Hx; [lra|].
    unfold Js.epsilon in *. lra.
Qed.

End Binary64.

(** ** The summary: the reduction in percent *)

Section Reduction.

Lemma Qsign_pos (z : Z) : 0 < z -> Js.Qsign (inject_Z z) = Gt.
Proof. intros Hz. destruct z; try lia. reflexivity. Qed.

(** The quotient of a size by a positive size, as a rational. *)
Lemma size_quotient (c o : Z) :
  0 <= c <= MAX_SAFE_INTEGER -> 0 < o ->
  (0 <= inject_Z c / inject_Z o <= 9007199254740991)%Q
  /\ (c <= o -> (inject_Z c / inject_Z o <= 1)%Q)
  /\ (101 * o <= 100 * c -> (101 # 100 <= inject_Z c / inject_Z o)%Q).
Proof.
  unfold MAX_SAFE_INTEGER. intros Hc Ho.
  destruct o as [|q|q]; try lia.
  unfold Qle, Qdiv, Qmult, Qinv, inject_Z; cbn -[Z.mul].
  rewrite ?Pos.mul_1_l, ?Pos.mul_1_r, ?Z.mul_1_r.
  pose proof (Pos2Z.is_pos q) as Hq. set (o := Z.pos q) in *. clearbody o.
  split; [split | split; intros Hco]; lia.
Qed.

(** The three operations of the reduction on sizes that numbers hold
    exactly: the value that [Math.round] is given is finite and within
    [(1 + c / o) * 2^-44] of the exact percentage. *)
Lemma percentage_error (c o : Z) :
  0 <= c <= MAX_SAFE_INTEGER -> 0 < o <= MAX_SAFE_INTEGER ->
  exists t,
    Js.mul (Js.sub (Js.of_Z 1) (Js.div (Js.of_Z c) (Js.of_Z o))) (Js.of_Z 100)
    = Js.Fin t
    /\ (Qabs (t - (1 - inject_Z c / inject_Z o) * 100)
        <= (1 + inject_Z c / inject_Z o) * (1 # 17592186044416))%Q.
Proof.
  intros Hc Ho.
  destruct (size_quotient c o Hc ltac:(lia)) as ((Hy0 & Hy1) & _ & _).
  unfold Js.of_Z, Js.div. rewrite (Qsign_pos o) by lia.
  set (y := (inject_Z c / inject_Z o)%Q) in *. clearbody y.
  destruct tiny_small as [Ht0 Ht1].
  destruct (fl_small y ltac:(lra)) as (y' & -> & Hpos & _).
  destruct (Hpos Hy0) as (Hy'0 & Hy'). clear Hpos.
  cbn [Js.sub]. change (inject_Z 1) with 1%Q.
  unfold Js.epsilon in *.
  destruct (fl_small (1 - y') ltac:(lra)) as (z' & -> & Hzp & Hzn).
  unfold Js.epsilon in *.
  cbn [Js.mul]. change (inject_Z 100) with 100%Q.
  destruct (Qlt_le_dec (1 - y') 0) as [Hz|Hz].
  - destruct (Hzn ltac:(lra)) as (Hz'0 & Hz'). clear Hzp Hzn.
    destruct (fl_small (z' * 100) ltac:(lra)) as (t & -> & _ & Htn).
    unfold Js.epsilon in *.
    destruct (Htn ltac:(lra)) as (_ & Ht).
    exists t. split; [reflexivity|].
    apply Qabs_Qle_condition. lra.
  - destruct (Hzp Hz) as (Hz'0 & Hz'). clear Hzp Hzn.
    destruct (fl_small (z' * 100) ltac:(lra)) as (t & -> & Htp & _).
    unfold Js.epsilon in *.
    destruct (Htp ltac:(lra)) as (_ & Ht).
    exists t. split; [reflexivity|].
    apply Qabs_Qle_condition. lra.
Qed.

(** What [Math.round] makes of a value close to the exact percentage. *)
Lemma rounded_percentage (c o : Z) (t : Q) :
  0 <= c <= MAX_SAFE_INTEGER -> 0 < o ->
  (Qabs (t - (1 - inject_Z c / inject_Z o) * 100)
   <= (1 + inject_Z c / inject_Z o) * (1 # 17592186044416))%Q ->
  (Qabs (inject_Z (Js.Math_round t) - (1 - inject_Z c / inject_Z o) * 100)
   <= (1 # 2) + (1 + inject_Z c / inject_Z o) * (1 # 17592186044416))%Q
  /\ Js.Math_round t <= 100
  /\ (c <= o -> 0 <= Js.Math_round t)
  /\ (101 * o <= 100 * c -> Js.Math_round t < 0).
Proof.
  intros Hc Ho Ht.
  destruct (size_quotient c o Hc Ho) as ((Hy0 & Hy1) & Hle & Hge).
  set (y := (inject_Z c / inject_Z o)%Q) in *. clearbody y.
  apply Qabs_Qle_condition in Ht.
  unfold Js.Math_round.
  pose proof (Qfloor_le (t + (1 # 2))) as Hlo.
  pose proof (Qlt_floor (t + (1 # 2))) as Hhi.
  rewrite inject_Z_plus in Hhi. change (inject_Z 1) with 1%Q in Hhi.
  set (p := Qfloor (t + (1 # 2))) in *. clearbody p.
  split; [apply Qabs_Qle_condition; lra|].
  split; [|split].
  - assert (p < 101); [|lia].
    rewrite Zlt_Qlt. change (inject_Z 101) with 101%Q. lra.
  - intros Hco. specialize (Hle Hco).
    assert (-1 < p); [|lia].
    rewrite Zlt_Qlt. change (inject_Z (-1)) with (-1)%Q. lra.
  - intros Hco. specialize (Hge Hco).
    rewrite Zlt_Qlt. change (inject_Z 0) with 0%Q. lra.
Qed.


(** With nothing compressed out of nothing the summary shows [NaN]; with an
    empty original and any URL at all it shows [-Infinity]. *)
Example reduction_0_0 :
  reduction {| originalSize := 0; compressedSize := 0;
               compressedDataUrl := ""; name := "empty" |} = Js.NaN.
Proof. reflexivity. Qed.

Example reduction_0_17 :
  reduction {| originalSize := 0; compressedSize := 17;
               compressedDataUrl := "data:image/jpeg;base64"; name := "empty" |}
  = Js.NegInf.
Proof. reflexivity. Qed.

(** Where binary64 shows: the exact percentage of 425,000 in 1,000,000 is
    57.5, which [Math.round] would make 58; the three operations give
    57.499999999999993, and 57 is shown. *)
Example reduction_425000 :
  let r := {| originalSize := 1000000; compressedSize := 425000;
              compressedDataUrl := ""; name := "photo.png" |} in
  reduction r = Js.of_Z 57 /\ Js.Math_round (exact_percentage r) = 58.
Proof. split; vm_compute; reflexivity. Qed.

(** One rounding against [SpecFloat]: a tenth, a third, ties among the
    subnormal numbers, the largest number and the overflow past it. *)
Example fl_as_SpecFloat :
  List.Forall
    (fun men : Z * Z * Z =>
       let '(m, e, n) := men in
       Js.fl (inject_Z m * 2 ^ e / inject_Z n) = Js.spec_float_quotient m e n
       /\ Js.fl (inject_Z m * 2 ^ e * inject_Z n) = Js.spec_float_product m e n)
    [(1, 0, 10); (1, 0, 3); (-2, 0, 3); (1, -1074, 2); (3, -1074, 2);
     (5, -1074, 4); (1, -1022, 3); (9007199254740991, 971, 1);
     (9007199254740991, 971, 2); (9007199254740993, 0, 1);
     (9007199254740995, 0, 1); (1, 1023, -2); (123456789, -30, 1000)].
Proof. repeat constructor. Qed.

(** The operations of [Js] and those of [SpecFloat] on the same sizes. *)
Example percentage_as_SpecFloat :
  List.Forall
    (fun co : Z * Z =>
       Js.mul (Js.sub (Js.of_Z 1) (Js.div (Js.of_Z (fst co)) (Js.of_Z (snd co))))
         (Js.of_Z 100)
       = Js.spec_float_percentage (fst co) (snd co))
    [(425000, 1000000); (250000, 1000000); (17, 40); (1, 3); (2, 3); (1, 200);
     (1005, 1000); (123456789, 987654321); (5, 0); (0, 0); (0, 7);
     (430158282464, 86031656492799); (9007199254740991, 1);
     (1, 9007199254740991)].
Proof. repeat constructor. Qed.

End Reduction.

(** ** The event loop *)

Section EventLoop.

Context `{Platform}.

Lemma first_file_None (files : option (list File.t)) :
  first_file files = None <-> files = None \/ files = Some [].
Proof.
  unfold first_file. split.
  - destruct files as [[|f l]|]; cbn; intros Hf; auto; discriminate.
  - intros [-> | ->]; reflexivity.
Qed.

(** C10. When the event carries no file, the list being absent or empty,
    [handleFileChange] returns the world it was given: the result stored and
    the loading flag are as they were, and no operation is started. *)
Theorem handleFileChange_no_file (files : option (list File.t)) (w : World) :
  files = None \/ files = Some [] ->
  handleFileChange files w = w
  /\ image (ui (handleFileChange files w)) = image (ui w)
  /\ loading (ui (handleFileChange files w)) = loading (ui w).
Proof.
  intros Hf. apply first_file_None in Hf.
  unfold handleFileChange. rewrite Hf. auto.
Qed.

(** With a file the handler sets the flag and suspends on one more
    operation. *)
Lemma handleFileChange_file (files : option (list File.t)) (file : File.t) (w : World) :
  first_file files = Some file ->
  handleFileChange files w
  = {| ui := setLoading true (ui w);
       pending := pending w ++ [Reading file];
       downloads := downloads w |}.
Proof. intros Hf. unfold handleFileChange. rewrite Hf. reflexivity. Qed.

Lemma waiting_app (file : File.t) (l1 l2 : list Op) :
  waiting file (l1 ++ l2) = (waiting file l1 + waiting file l2)%nat.
Proof. unfold waiting. rewrite filter_app, length_app. reflexivity. Qed.

Lemma waiting_cons (file : File.t) (o : Op) (l : list Op) :
  waiting file (o :: l)
  = ((if waits_on file o then 1 else 0) + waiting file l)%nat.
Proof. unfold waiting. cbn. destruct (waits_on file o); reflexivity. Qed.

Lemma waits_on_file (file : File.t) (o : Op) :
  waits_on file o = true <-> op_file o = file.
Proof.
  unfold waits_on. destruct (File.eq_dec (op_file o) file); split; intros Hw;
    congruence.
Qed.

(** An undecodable file is never compressed. *)
Lemma undecodable_compressImage (file : File.t) :
  undecodable file -> compressImage file = None.
Proof.
  intros Hu. unfold compressImage.
  destruct (readAsDataURL file) as [src|] eqn:Hread; [|reflexivity].
  rewrite (Hu src Hread). reflexivity.
Qed.

(** The invariant of the pending operations is kept by every turn. *)
Lemma callback_ok (w w' : World) : World_ok w -> callback w w' -> World_ok w'.
Proof.
  unfold World_ok. intros Hok Hcb.
  destruct Hcb as [w l1 file l2 src Hp Hread | w l1 file src l2 width height Hp Hdec];
    cbn [pending]; rewrite Hp in Hok;
    apply Forall_app in Hok; destruct Hok as [Hok1 Hok2];
    apply Forall_cons_iff in Hok2; destruct Hok2 as [_ Hok2];
    apply Forall_app; split; auto.
Qed.

Lemma click_download_pending (w : World) :
  pending (click_download w) = pending w /\ ui (click_download w) = ui w.
Proof. unfold click_download. destruct (handleDownload (ui w)); auto. Qed.

Lemma step_ok (w w' : World) : World_ok w -> step w w' -> World_ok w'.
Proof.
  intros Hok Hst. destruct Hst as [w w' Hcb | files w | w].
  - eapply callback_ok; eassumption.
  - unfold World_ok, handleFileChange. destruct (first_file files); [|exact Hok].
    cbn [pending]. apply Forall_app. split; [exact Hok|].
    constructor; [exact I | constructor].
  - unfold World_ok. rewrite (proj1 (click_download_pending w)). exact Hok.
Qed.

(** No turn writes to the console: the [catch] of the handler is never
    entered, the promise it awaits having no way to be rejected. *)
Lemma step_console (w w' : World) : step w w' -> console (ui w') = console (ui w).
Proof.
  intros Hst. destruct Hst as [w w' Hcb | files w | w].
  - destruct Hcb; reflexivity.
  - unfold handleFileChange. destruct (first_file files); reflexivity.
  - rewrite (proj2 (click_download_pending w)). reflexivity.
Qed.

(** No callback takes away an operation that waits on an undecodable
    file. *)
Lemma callback_waiting (file : File.t) (w w' : World) :
  undecodable file -> World_ok w -> callback w w' ->
  waiting file (pending w') = waiting file (pending w).
Proof.
  intros Hu Hok Hcb. unfold World_ok in Hok.
  destruct Hcb as [w l1 f l2 src Hp Hread | w l1 f src l2 width height Hp Hdec];
    cbn [pending]; rewrite Hp; rewrite !waiting_app, !waiting_cons.
  - reflexivity.
  - rewrite Hp in Hok. apply Forall_app in Hok. destruct Hok as [_ Hok].
    apply Forall_cons_iff in Hok. destruct Hok as [Hread _]. cbn in Hread.
    destruct (waits_on file (Decoding f src)) eqn:Hw; [|reflexivity].
    apply waits_on_file in Hw. cbn in Hw. subst f.
    rewrite (Hu src Hread) in Hdec. discriminate.
Qed.

Lemma step_waiting (file : File.t) (w w' : World) :
  undecodable file -> World_ok w -> step w w' ->
  (waiting file (pending w) <= waiting file (pending w'))%nat.
Proof.
  intros Hu Hok Hst. destruct Hst as [w w' Hcb | files w | w].
  - rewrite (callback_waiting file w w' Hu Hok Hcb). apply Nat.le_refl.
  - unfold handleFileChange. destruct (first_file files); [|apply Nat.le_refl].
    cbn [pending]. rewrite waiting_app. apply Nat.le_add_r.
  - rewrite (proj1 (click_download_pending w)). apply Nat.le_refl.
Qed.

Lemma steps_invariant (file : File.t) (w w' : World) :
  undecodable file -> World_ok w -> steps w w' ->
  World_ok w'
  /\ (waiting file (pending w) <= waiting file (pending w'))%nat
  /\ console (ui w') = console (ui w).
Proof.
  intros Hu Hok Hst. induction Hst as [w | w w1 w' Hst Hrest IH].
  - auto.
  - destruct (IH (step_ok _ _ Hok Hst)) as (Hok' & Hwait & Hcons).
    split; [exact Hok'|]. split.
    + eapply Nat.le_trans; [apply (step_waiting file w w1 Hu Hok Hst) | exact Hwait].
    + rewrite Hcons. apply step_console. exact Hst.
Qed.

(** While every pending operation is on an undecodable file, a callback
    leaves the state of the component as it is. *)
Lemma callback_undecodable (w w' : World) :
  World_ok w ->
  Forall (fun o => undecodable (op_file o)) (pending w) ->
  callback w w' ->
  ui w' = ui w /\ Forall (fun o => undecodable (op_file o)) (pending w').
Proof.
  intros Hok Hall Hcb. unfold World_ok in Hok.
  destruct Hcb as [w l1 f l2 src Hp Hread | w l1 f src l2 width height Hp Hdec];
    cbn [pending ui]; rewrite Hp in Hall, Hok;
    apply Forall_app in Hall; destruct Hall as [Hall1 Hall2];
    apply Forall_cons_iff in Hall2; destruct Hall2 as [Hf Hall2]; cbn in Hf.
  - split; [reflexivity|]. apply Forall_app. split; auto.
  - apply Forall_app in Hok. destruct Hok as [_ Hok].
    apply Forall_cons_iff in Hok. destruct Hok as [Hread _]. cbn in Hread.
    rewrite (Hf src Hread) in Hdec. discriminate.
Qed.

Lemma callbacks_undecodable (w w' : World) :
  World_ok w ->
  Forall (fun o => undecodable (op_file o)) (pending w) ->
  callbacks w w' ->
  ui w' = ui w.
Proof.
  intros Hok Hall Hcbs. induction Hcbs as [w | w w1 w' Hcb Hrest IH].
  - reflexivity.
  - destruct (callback_undecodable w w1 Hok Hall Hcb) as [Hui Hall1].
    rewrite <- Hui. apply IH; [eapply callback_ok; eassumption | exact Hall1].
Qed.

(** C9. Selecting a file that does not decode: the promise of
    [compressImage] is never resolved, so the operation stays among the
    pending ones through every later turn of the event loop; nothing is
    ever written to the console, the [catch] of the handler not being
    entered; and while no other operation can resolve, the callbacks of the
    browser leave the result displayed before as it was. *)
Theorem undecodable_never_resolves
    (files : option (list File.t)) (file : File.t) (w : World) :
  World_ok w ->
  first_file files = Some file ->
  undecodable file ->
  let w0 := handleFileChange files w in
  compressImage file = None
  /\ (forall w', steps w0 w' ->
        (waiting file (pending w) < waiting file (pending w'))%nat
        /\ console (ui w') = console (ui w))
  /\ (Forall (fun o => undecodable (op_file o)) (pending w) ->
      forall w', callbacks w0 w' ->
        image (ui w') = image (ui w) /\ console (ui w') = console (ui w)).
Proof.
  intros Hok Hf Hu w0. subst w0.
  assert (Hok0 : World_ok (handleFileChange files w)).
  { apply (step_ok w); [exact Hok | apply step_change]. }
  rewrite (handleFileChange_file files file w Hf) in *.
  split; [apply undecodable_compressImage; exact Hu|]. split.
  - intros w' Hst.
    destruct (steps_invariant file _ w' Hu Hok0 Hst) as (_ & Hwait & Hcons).
    cbn [pending ui] in Hwait, Hcons.
    rewrite waiting_app, waiting_cons in Hwait.
    assert (Hw : waits_on file (Reading file) = true)
      by (apply waits_on_file; reflexivity).
    rewrite Hw in Hwait. cbn in Hwait.
    split; [lia | exact Hcons].
  - intros Hall w' Hcbs.
    assert (Hui : ui w' = setLoading true (ui w)).
    { apply (callbacks_undecodable _ w' Hok0); [|exact Hcbs].
      cbn [pending]. apply Forall_app. split; [exact Hall|].
      constructor; [exact Hu | constructor]. }
    rewrite Hui. split; reflexivity.
Qed.

(** The loading flag of such an operation is set and stays set: the line
    that clears it comes after the [await]. *)
Lemma undecodable_keeps_loading
    (files : option (list File.t)) (file : File.t) (w w' : World) :
  World_ok w ->
  first_file files = Some file ->
  undecodable file ->
  Forall (fun o => undecodable (op_file o)) (pending w) ->
  callbacks (handleFileChange files w) w' ->
  loading (ui w') = true.
Proof.
  intros Hok Hf Hu Hall Hcbs.
  assert (Hok0 : World_ok (handleFileChange files w)).
  { apply (step_ok w); [exact Hok | apply step_change]. }
  rewrite (handleFileChange_file files file w Hf) in *.
  assert (Hui : ui w' = setLoading true (ui w)).
  { apply (callbacks_undecodable _ w' Hok0); [|exact Hcbs].
    cbn [pending]. apply Forall_app. split; [exact Hall|].
    constructor; [exact Hu | constructor]. }
  rewrite Hui. reflexivity.
Qed.

(** X21. A file that decodes, selected with nothing pending: after the two
    callbacks the result is displayed, the flag is cleared and nothing is
    pending. *)
Lemma decodable_resolves (files : option (list File.t)) (file : File.t)
    (r : CompressedImage) (w : World) :
  pending w = [] ->
  first_file files = Some file ->
  compressImage file = Some r ->
  exists w', callbacks (handleFileChange files w) w'
             /\ image (ui w') = Some r
             /\ loading (ui w') = false
             /\ pending w' = [].
Proof.
  intros Hp Hf Hc. rewrite (handleFileChange_file files file w Hf), Hp.
  unfold compressImage in Hc.
  destruct (readAsDataURL file) as [src|] eqn:Hread; [|discriminate].
  destruct (decode src) as [[width height]|] eqn:Hdec; [|discriminate].
  injection Hc as <-.
  eexists. split.
  - eapply Relation_Operators.rt1n_trans.
    + apply (reader_onload _ [] file [] src); [reflexivity | exact Hread].
    + eapply Relation_Operators.rt1n_trans.
      * apply (image_onload _ [] file src [] width height);
          [reflexivity | exact Hdec].
      * apply Relation_Operators.rt1n_refl.
  - cbn. auto.
Qed.

End EventLoop.

(** ** The theorems at concrete inputs *)

Lemma resize_landscape_or_square_witness :
  resize 2400 1200 = (1200, 600) /\ resize 1500 1500 = (1200, 1200).
Proof.
  split.
  - rewrite (resize_landscape_or_square 2400 1200); [reflexivity | lia | lia].
  - rewrite (resize_landscape_or_square 1500 1500); [reflexivity | lia | lia].
Defined.

Lemma resize_portrait_witness :
  2400 > 1200 /\ 2400 > 800 /\ resize 800 2400 = (400, 1200).
Proof.
  split; [lia|]. split; [lia|].
  rewrite (resize_portrait 800 2400); [reflexivity | lia | lia].
Defined.

Lemma resize_within_caps_witness :
  0 < 600 /\ 0 < 400 /\ resize 600 400 = (600, 400).
Proof.
  split; [lia|]. split; [lia|].
  apply (resize_within_caps 600 400); lia.
Defined.

Lemma resize_aspect_ratio_witness :
  fst (resize 1919 1079) = 1200
  /\ (Qabs (inject_Z (snd (resize 1919 1079))
           - inject_Z 1079 * inject_Z (fst (resize 1919 1079)) / inject_Z 1919)
      <= 1)%Q
  /\ (Qabs (inject_Z (snd (resize 1919 1079)) / inject_Z (fst (resize 1919 1079))
           - inject_Z 1079 / inject_Z 1919)
      <= 1 / inject_Z (fst (resize 1919 1079)))%Q.
Proof.
  destruct (proj1 (resize_aspect_ratio 1919 1079 ltac:(lia) ltac:(lia)) ltac:(lia))
    as (Hw & _ & Hpx & Hratio & _).
  split; [exact Hw|]. split; [exact Hpx | exact Hratio].
Defined.

Lemma resize_capped_witness :
  fst (resize 4000 3999) <= 1200 /\ snd (resize 4000 3999) <= 1200.
Proof.
  apply (resize_capped 4000 3999); lia.
Defined.

Lemma compressedSize_estimate_witness :
  exists r,
    @compressImage Sample.browser Sample.photo = Some r
    /\ str_length (compressedDataUrl r) = 39
    /\ compressedSize r = (3 * str_length (compressedDataUrl r) + 2) / 4.
Proof.
  eexists. split; [reflexivity|]. split; [reflexivity|].
  apply (@compressedSize_estimate Sample.browser Sample.photo _ eq_refl).
Defined.


Lemma result_and_download_name_witness :
  exists r,
    @compressImage Sample.browser Sample.photo = Some r
    /\ originalSize r = 8
    /\ handleDownload {| image := Some r; loading := false; console := [] |}
       = Some {| href := compressedDataUrl r;
                 download := "compressed-photo.png" |}.
Proof.
  eexists. split; [reflexivity|]. split; [reflexivity|].
  apply (@result_and_download_name Sample.browser Sample.photo _
           {| image := Some _; loading := false; console := [] |}
           eq_refl eq_refl).
Defined.

Lemma undecodable_never_resolves_witness :
  let w1 := {| ui := {| image := None; loading := true; console := [] |};
               pending := [Decoding Sample.notes "data:notes.txt"];
               downloads := [] |} in
  @compressImage Sample.browser Sample.notes = None
  /\ @steps Sample.browser (handleFileChange (Some [Sample.notes]) initial) w1
  /\ (waiting Sample.notes (pending initial) < waiting Sample.notes (pending w1))%nat
  /\ console (ui w1) = [].
Proof.
  intros w1.
  assert (Hst : @steps Sample.browser
                  (handleFileChange (Some [Sample.notes]) initial) w1).
  { eapply Relation_Operators.rt1n_trans; [|apply Relation_Operators.rt1n_refl].
    apply (@step_callback Sample.browser).
    exact (@reader_onload Sample.browser
             (handleFileChange (Some [Sample.notes]) initial)
             [] Sample.notes [] "data:notes.txt" eq_refl eq_refl). }
  assert (Hu : @undecodable Sample.browser Sample.notes).
  { intros src Hread. injection Hread as <-. reflexivity. }
  destruct (@undecodable_never_resolves Sample.browser
              (Some [Sample.notes]) Sample.notes initial
              (Forall_nil _) eq_refl Hu) as (Hnone & Hsteps & _).
  destruct (Hsteps w1 Hst) as (Hwait & Hcons).
  repeat split; assumption.
Defined.

Lemma handleFileChange_no_file_witness :
  handleFileChange (Some []) initial = initial
  /\ handleFileChange None initial = initial.
Proof.
  split.
  - apply (handleFileChange_no_file (Some []) initial). right. reflexivity.
  - apply (handleFileChange_no_file None initial). left. reflexivity.
Defined.

(** ** More on the resize computation *)

Section ResizeMore.

(** What [resize] returns in its two scaling branches, with the bounds of
    the rounded dimension. *)
Lemma resize_scaled (W H : Z) :
  (W > H /\ W > 1200 /\
     exists h, resize W H = (1200, h)
               /\ 2 * h * W - W <= 2 * (H * 1200) < 2 * h * W + W)
  \/ (W <= H /\ H > 1200 /\
     exists w, resize W H = (w, 1200)
               /\ 2 * w * H - H <= 2 * (W * 1200) < 2 * w * H + H)
  \/ (W <= 1200 /\ H <= 1200 /\ resize W H = (W, H)).
Proof.
  destruct (resize_cases W H) as [(Hgt & Hbig & E) | [(Hle & Hbig & E) | Hid]].
  - left. repeat split; try assumption. eexists. split; [exact E|].
    apply (Math_round_div_bounds (H * 1200) W). lia.
  - right; left. repeat split; try assumption. eexists. split; [exact E|].
    apply (Math_round_div_bounds (W * 1200) H). lia.
  - right; right. exact Hid.
Qed.

(** X1. No dimension is ever enlarged. *)
Theorem resize_never_upscales (W H : Z) :
  0 <= W -> 0 <= H ->
  fst (resize W H) <= W /\ snd (resize W H) <= H.
Proof.
  intros HW HH.
  destruct (resize_scaled W H)
    as [(Hgt & Hbig & h & -> & Hh) | [(Hle & Hbig & w & -> & Hw) | (_ & _ & ->)]];
    cbn [fst snd]; split; try lia; nia.
Qed.

(** X2. The longer side of the result is the longer side of the source,
    capped at 1200. *)
Theorem resize_longer_side (W H : Z) :
  Z.max (fst (resize W H)) (snd (resize W H)) = Z.min (Z.max W H) 1200.
Proof.
  destruct (resize_scaled W H)
    as [(Hgt & Hbig & h & -> & Hh) | [(Hle & Hbig & w & -> & Hw) | (H1 & H2 & ->)]];
    cbn [fst snd].
  - assert (h <= 1200) by nia. lia.
  - assert (w <= 1200) by nia. lia.
  - lia.
Qed.

(** X3. Resizing a resized image changes nothing. *)
Theorem resize_idempotent (W H : Z) :
  resize (fst (resize W H)) (snd (resize W H)) = resize W H.
Proof.
  assert (Hid : forall a b, a <= 1200 -> b <= 1200 -> resize a b = (a, b)).
  { intros a b Ha Hb.
    destruct (resize_cases a b) as [(_ & Hbig & _) | [(_ & Hbig & _) | (_ & _ & E)]];
      [lia | lia | exact E]. }
  destruct (resize_scaled W H)
    as [(Hgt & Hbig & h & -> & Hh) | [(Hle & Hbig & w & -> & Hw) | (H1 & H2 & ->)]];
    cbn [fst snd]; apply Hid; try lia; nia.
Qed.

(** X4. A positive source loses a dimension altogether exactly when it is
    more than 2400 times longer in the other one. *)
Theorem resize_zero_dimension (W H : Z) :
  0 < W -> 0 < H ->
  (snd (resize W H) = 0 <-> 2400 * H < W)
  /\ (fst (resize W H) = 0 <-> 2400 * W < H).
Proof.
  intros HW HH.
  destruct (resize_scaled W H)
    as [(Hgt & Hbig & h & -> & Hh) | [(Hle & Hbig & w & -> & Hw) | (H1 & H2 & ->)]];
    cbn [fst snd]; split; split; intros Hz; try lia; nia.
Qed.

(** X5. The orientation is kept: a source wider than high is not made
    higher than wide, and the other way round. *)
Theorem resize_orientation (W H : Z) :
  (W > H -> fst (resize W H) >= snd (resize W H))
  /\ (W <= H -> fst (resize W H) <= snd (resize W H)).
Proof.
  destruct (resize_scaled W H)
    as [(Hgt & Hbig & h & -> & Hh) | [(Hle & Hbig & w & -> & Hw) | (H1 & H2 & ->)]];
    cbn [fst snd]; split; intros Hor; try lia; nia.
Qed.

End ResizeMore.

(** ** More on the event loop *)

Section EventLoopMore.

Context `{Platform}.

Lemma steps_ok (w w' : World) : World_ok w -> steps w w' -> World_ok w'.
Proof.
  intros Hok Hst. induction Hst as [w | w w1 w' Hst Hrest IH].
  - exact Hok.
  - apply IH. eapply step_ok; eassumption.
Qed.

Lemma callbacks_trans (w1 w2 w3 : World) :
  callbacks w1 w2 -> callbacks w2 w3 -> callbacks w1 w3.
Proof.
  intros H12 H23. induction H12 as [w | w wm w2 Hcb Hrest IH].
  - exact H23.
  - eapply Relation_Operators.rt1n_trans; [exact Hcb | apply IH; exact H23].
Qed.

Lemma steps_snoc (w1 w2 w3 : World) : steps w1 w2 -> step w2 w3 -> steps w1 w3.
Proof.
  intros H12 H23. induction H12 as [w | w wm w2 Hst Hrest IH].
  - eapply Relation_Operators.rt1n_trans; [exact H23 | apply Relation_Operators.rt1n_refl].
  - eapply Relation_Operators.rt1n_trans; [exact Hst | apply IH; exact H23].
Qed.

Lemma callbacks_steps (w w' : World) : callbacks w w' -> steps w w'.
Proof.
  intros Hcbs. induction Hcbs as [w | w wm w' Hcb Hrest IH].
  - apply Relation_Operators.rt1n_refl.
  - eapply Relation_Operators.rt1n_trans; [apply step_callback; exact Hcb | exact IH].
Qed.

(** The two callbacks of one operation on a file that decodes, whatever
    else is pending: the handler is resumed with the result and the
    operation is gone. *)
Lemma run_operation (w : World) (l1 l2 : list Op) (file : File.t)
    (r : CompressedImage) :
  pending w = l1 ++ Reading file :: l2 ->
  compressImage file = Some r ->
  callbacks w {| ui := handleFileChange_resume (Fulfilled r) (ui w);
                 pending := l1 ++ l2;
                 downloads := downloads w |}.
Proof.
  intros Hp Hc. unfold compressImage in Hc.
  destruct (readAsDataURL file) as [src|] eqn:Hread; [|discriminate].
  destruct (decode src) as [[width height]|] eqn:Hdec; [|discriminate].
  injection Hc as <-.
  eapply Relation_Operators.rt1n_trans.
  - apply (reader_onload w l1 file l2 src Hp Hread).
  - eapply Relation_Operators.rt1n_trans; [|apply Relation_Operators.rt1n_refl].
    exact (image_onload
             {| ui := ui w; pending := l1 ++ Decoding file src :: l2;
                downloads := downloads w |}
             l1 file src l2 width height eq_refl Hdec).
Qed.

(** Selecting one file that decodes on the mounted component and letting
    its callbacks run. *)
Lemma run_from_initial (file : File.t) (r : CompressedImage) :
  compressImage file = Some r ->
  steps initial (Sample.showing r).
Proof.
  intros Hc.
  eapply Relation_Operators.rt1n_trans; [apply (step_change (Some [file]))|].
  apply callbacks_steps.
  exact (run_operation (handleFileChange (Some [file]) initial) [] [] file r
           eq_refl Hc).
Qed.

(** X6. Every world reached from the mounted component keeps the invariant
    of the pending operations: one that decodes a data URL has read it from
    its own file. *)
Theorem reachable_ok (w : World) : steps initial w -> World_ok w.
Proof. apply steps_ok. constructor. Qed.

(** X7. Nothing is ever written to the console, in any run from any world:
    the promise that the handler awaits is never rejected, and its [catch]
    is never entered. *)
Theorem console_never_written (w w' : World) :
  steps w w' -> console (ui w') = console (ui w).
Proof.
  intros Hst. induction Hst as [w | w w1 w' Hst Hrest IH].
  - reflexivity.
  - rewrite IH. apply step_console. exact Hst.
Qed.

Lemma step_image (w w' : World) :
  step w w' -> image (ui w) <> None -> image (ui w') <> None.
Proof.
  intros Hst Him. destruct Hst as [w w' Hcb | files w | w].
  - destruct Hcb; cbn; [exact Him | discriminate].
  - unfold handleFileChange. destruct (first_file files); exact Him.
  - rewrite (proj2 (click_download_pending w)). exact Him.
Qed.

(** X8. A result, once displayed, is only ever replaced by another one:
    no turn of the event loop takes it away. *)
Theorem image_never_cleared (w w' : World) :
  steps w w' -> image (ui w) <> None -> image (ui w') <> None.
Proof.
  intros Hst. induction Hst as [w | w w1 w' Hst Hrest IH].
  - auto.
  - intros Him. apply IH. eapply step_image; eassumption.
Qed.

Lemma step_sound (w w' : World) : World_sound w -> step w w' -> World_sound w'.
Proof.
  intros (Hok & Him & Hdl) Hst.
  split; [eapply step_ok; eassumption|].
  destruct Hst as [w w' Hcb | files w | w].
  - destruct Hcb as [w l1 file l2 src Hp Hread | w l1 file src l2 width height Hp Hdec];
      cbn [ui downloads]; split; try assumption.
    intros r Hr. cbn in Hr. injection Hr as <-.
    unfold World_ok in Hok. rewrite Hp in Hok.
    apply Forall_app in Hok. destruct Hok as [_ Hok].
    apply Forall_cons_iff in Hok. destruct Hok as [Hread _]. cbn in Hread.
    exists file. unfold compressImage. rewrite Hread, Hdec. reflexivity.
  - unfold handleFileChange. destruct (first_file files); split; assumption.
  - split; [rewrite (proj2 (click_download_pending w)); exact Him|].
    unfold click_download, handleDownload.
    destruct (image (ui w)) as [r|] eqn:Hr; [|exact Hdl].
    cbn [downloads].
    apply Forall_app. split; [exact Hdl|]. constructor; [|constructor].
    destruct (Him r eq_refl) as [file Hc]. exists file, r. split; [exact Hc|].
    destruct (compressImage_Some file r Hc) as (img & _ & _ & ->).
    destruct (img_onload_fields file img) as (_ & Hname & _). cbv zeta in Hname.
    rewrite Hname. reflexivity.
Qed.

Lemma steps_sound (w w' : World) : World_sound w -> steps w w' -> World_sound w'.
Proof.
  intros Hs Hst. induction Hst as [w | w w1 w' Hst Hrest IH].
  - exact Hs.
  - apply IH. eapply step_sound; eassumption.
Qed.

Lemma initial_sound : World_sound initial.
Proof.
  split; [constructor|]. split; [|constructor].
  intros r Hr. discriminate.
Qed.

(** X9. In every world reached from the mounted component, the result
    displayed is what [compressImage] resolves with for some file, and its
    compressed size is the estimate for its own data URL: the two are never
    out of step. *)
Theorem displayed_result_consistent (w : World) (r : CompressedImage) :
  steps initial w ->
  image (ui w) = Some r ->
  (exists file, compressImage file = Some r /\ originalSize r = File.size file)
  /\ compressedSize r = (3 * str_length (compressedDataUrl r) + 2) / 4.
Proof.
  intros Hst Hr.
  destruct (steps_sound initial w initial_sound Hst) as (_ & Him & _).
  destruct (Him r Hr) as [file Hc].
  destruct (compressImage_Some file r Hc) as (img & _ & _ & E).
  destruct (img_onload_fields file img) as (Ho & _ & Hsize).
  cbv zeta in Ho, Hsize. rewrite <- E in Ho, Hsize.
  split; [exists file; split; assumption|].
  rewrite Hsize, Math_round_div by lia.
  generalize (str_length (compressedDataUrl r)). intros L.
  Z.to_euclidean_division_equations. lia.
Qed.

(** X10. Every download asked for, in any run from the mounted component,
    carries the data URL of the result of some file and is named
    [compressed-] followed by the name of that file. *)
Theorem downloads_of_results (w : World) (d : Download) :
  steps initial w ->
  In d (downloads w) ->
  exists file r,
    compressImage file = Some r
    /\ href d = compressedDataUrl r
    /\ download d = ("compressed-" ++ File.name file)%string.
Proof.
  intros Hst Hd.
  destruct (steps_sound initial w initial_sound Hst) as (_ & _ & Hdl).
  rewrite Forall_forall in Hdl.
  destruct (Hdl d Hd) as (file & r & Hc & ->).
  exists file, r. auto.
Qed.

End EventLoopMore.

(** ** What the user sees *)

Section Page.

Context `{Platform}.

(** X11. After an undecodable file is selected, with nothing else that can
    resolve, the page shows [Processing...] through every callback and the
    summary it showed before: the flag is cleared only after the [await]
    that never returns. *)
Theorem undecodable_spinner_stays
    (files : option (list File.t)) (file : File.t) (w w' : World) :
  World_ok w ->
  first_file files = Some file ->
  undecodable file ->
  Forall (fun o => undecodable (op_file o)) (pending w) ->
  callbacks (handleFileChange files w) w' ->
  label (render (ui w')) = "Processing..."%string
  /\ summary (render (ui w')) = summary (render (ui w)).
Proof.
  intros Hok Hf Hu Hall Hcbs.
  assert (Hok0 : World_ok (handleFileChange files w)).
  { apply (step_ok w); [exact Hok | apply step_change]. }
  rewrite (handleFileChange_file files file w Hf) in *.
  assert (Hui : ui w' = setLoading true (ui w)).
  { apply (callbacks_undecodable _ w' Hok0); [|exact Hcbs].
    cbn [pending]. apply Forall_app. split; [exact Hall|].
    constructor; [exact Hu | constructor]. }
  rewrite Hui. split; reflexivity.
Qed.

(** X12. The summary, with its button, is rendered exactly when a result is
    stored, and the button then downloads the very data URL that is
    previewed, under the name of the result prefixed by [compressed-]. *)
Theorem button_downloads_preview (s : State) :
  match summary (render s) with
  | None => image s = None /\ handleDownload s = None
  | Some v =>
      exists r, image s = Some r
                /\ handleDownload s
                   = Some {| href := preview_src v;
                             download := "compressed-" ++ name r |}
  end.
Proof.
  unfold render, handleDownload. cbn [summary].
  destruct (image s) as [r|]; [|auto].
  exists r. cbn [preview_src]. auto.
Qed.

(** The world after two files are selected in a row on the mounted
    component. *)
Lemma two_selected (f1 f2 : File.t) :
  handleFileChange (Some [f2]) (handleFileChange (Some [f1]) initial)
  = {| ui := {| image := None; loading := true; console := [] |};
       pending := [Reading f1; Reading f2];
       downloads := [] |}.
Proof. reflexivity. Qed.

(** X13. The operation that finishes last wins.  A callback either leaves
    the page as it is, or takes one operation off the pending ones and puts
    the result of that operation's file on the page, whatever was there.
    So with two files selected in a row, both decoding: when the first one
    finishes first its result is shown while the second is pending, and
    the second then replaces it; when the second one finishes first it is
    the other way round, and the page ends on the result of the file that
    was selected first. *)
Theorem last_to_finish_wins (f1 f2 : File.t) (r1 r2 : CompressedImage) :
  compressImage f1 = Some r1 ->
  compressImage f2 = Some r2 ->
  let w0 := handleFileChange (Some [f2]) (handleFileChange (Some [f1]) initial) in
  (forall w w' : World,
      World_ok w -> callback w w' ->
      (ui w' = ui w /\ List.length (pending w') = List.length (pending w))
      \/ (exists l1 file src l2 r,
             pending w = l1 ++ Decoding file src :: l2
             /\ pending w' = l1 ++ l2
             /\ compressImage file = Some r
             /\ image (ui w') = Some r
             /\ loading (ui w') = false))
  /\ (exists wm w',
         callbacks w0 wm /\ pending wm = [Reading f2] /\ image (ui wm) = Some r1
         /\ callbacks wm w' /\ pending w' = [] /\ image (ui w') = Some r2)
  /\ (exists wm w',
         callbacks w0 wm /\ pending wm = [Reading f1] /\ image (ui wm) = Some r2
         /\ callbacks wm w' /\ pending w' = [] /\ image (ui w') = Some r1).
Proof.
  intros Hc1 Hc2 w0. subst w0. rewrite two_selected. split; [|split].
  - intros w w' Hok Hcb. unfold World_ok in Hok.
    destruct Hcb as [w l1 file l2 src Hp Hread | w l1 file src l2 width height Hp Hdec].
    + left. cbn [ui pending]. split; [reflexivity|].
      rewrite Hp, !length_app. reflexivity.
    + right. rewrite Hp in Hok. apply Forall_app in Hok. destruct Hok as [_ Hok].
      apply Forall_cons_iff in Hok. destruct Hok as [Hread _]. cbn in Hread.
      exists l1, file, src, l2. eexists. cbn [ui pending].
      split; [exact Hp|]. split; [reflexivity|]. split; [|split; reflexivity].
      unfold compressImage. rewrite Hread, Hdec. reflexivity.
  - eexists. eexists. split; [|split; [|split; [|split]]].
    + apply (run_operation _ [] [Reading f2] f1 r1); [reflexivity | exact Hc1].
    + reflexivity.
    + reflexivity.
    + apply (run_operation _ [] [] f2 r2); [reflexivity | exact Hc2].
    + cbn. auto.
  - eexists. eexists. split; [|split; [|split; [|split]]].
    + apply (run_operation _ [Reading f1] [] f2 r2); [reflexivity | exact Hc2].
    + reflexivity.
    + reflexivity.
    + apply (run_operation _ [] [] f1 r1); [reflexivity | exact Hc1].
    + cbn. auto.
Qed.

(** X14. The loading flag does not count the operations: when two files are
    selected in a row and the first one decodes, its result clears the flag
    while the second operation is still pending. *)
Theorem loading_cleared_while_pending (f1 f2 : File.t) (r1 : CompressedImage) :
  compressImage f1 = Some r1 ->
  exists w',
    callbacks (handleFileChange (Some [f2]) (handleFileChange (Some [f1]) initial)) w'
    /\ loading (ui w') = false
    /\ label (render (ui w')) = "Click to upload an image"%string
    /\ pending w' = [Reading f2].
Proof.
  intros Hc1. rewrite two_selected. eexists. split.
  - apply (run_operation _ [] [Reading f2] f1 r1); [reflexivity | exact Hc1].
  - cbn. auto.
Qed.

End Page.

(** ** Sizes as text *)

Section FormatSize.

Lemma length_app_string (s t : string) :
  String.length (s ++ t)%string = (String.length s + String.length t)%nat.
Proof. induction s as [|c s IH]; cbn; [reflexivity | rewrite IH; reflexivity]. Qed.

Lemma append_cancel_r (s1 s2 t : string) :
  (s1 ++ t = s2 ++ t)%string -> s1 = s2.
Proof.
  revert s2. induction s1 as [|a s1 IH]; intros [|c s2] E; cbn in E.
  - reflexivity.
  - apply (f_equal String.length) in E. cbn in E.
    rewrite length_app_string in E. lia.
  - apply (f_equal String.length) in E. cbn in E.
    rewrite length_app_string in E. lia.
  - injection E as -> E. f_equal. apply IH. exact E.
Qed.

Lemma string_of_Z_inj (a b : Z) : string_of_Z a = string_of_Z b -> a = b.
Proof.
  unfold string_of_Z. intros E.
  assert (Hnn : forall z, Z.to_int z <> Decimal.Pos Decimal.Nil
                          /\ Z.to_int z <> Decimal.Neg Decimal.Nil).
  { intros [|p|p]; cbn; split; try discriminate; intros [= E'];
      exact (DecimalPos.Unsigned.to_uint_nonnil p E'). }
  apply (f_equal NilZero.int_of_string) in E.
  rewrite !NilZero.isi in E by apply Hnn.
  injection E as E. apply DecimalZ.to_int_inj. exact E.
Qed.

(** [toFixed(2)] of a quotient of integers that is not negative. *)
Lemma toFixed2_quotient (b d : Z) :
  0 <= b -> 0 < d ->
  let n := (200 * b + d) / (2 * d) in
  toFixed2 (inject_Z b / inject_Z d)
  = (string_of_Z (n / 100) ++ "." ++ two_digits (n mod 100))%string.
Proof.
  intros Hb Hd n. unfold toFixed2.
  assert (Hx : (0 <= inject_Z b / inject_Z d)%Q).
  { destruct d as [|p|p]; try lia.
    unfold Qle, Qdiv, Qmult, Qinv, inject_Z; cbn -[Z.mul]. lia. }
  destruct (Qlt_le_dec (inject_Z b / inject_Z d) 0) as [Hneg|_].
  { exfalso. apply (Qlt_not_le _ _ Hneg). exact Hx. }
  assert (Hn : hundredths (Qabs (inject_Z b / inject_Z d)) = n).
  { unfold hundredths. rewrite (Qabs_pos _ Hx). subst n.
    destruct d as [|p|p]; try lia.
    assert (E : (inject_Z b / inject_Z (Z.pos p) * 100 + (1 # 2)
                 == (200 * b + Z.pos p) # (2 * p))%Q).
    { unfold Qeq, Qplus, Qdiv, Qmult, Qinv, inject_Z;
        cbn -[Z.mul Z.add]; rewrite ?Pos2Z.inj_mul. lia. }
    rewrite E. reflexivity. }
  rewrite Hn. reflexivity.
Qed.

(** X15. From 1 KiB up to 1 MiB the size is shown in KB with two decimals:
    the figure is the nearest hundredth to [bytes / 1024], between 1.00 and
    1024.00. *)
Theorem formatSize_KB (bytes : Z) :
  1024 <= bytes < 1048576 ->
  let n := (25 * bytes + 128) / 256 in
  formatSize bytes
  = ((string_of_Z (n / 100) ++ "." ++ two_digits (n mod 100)) ++ " KB")%string
  /\ 100 <= n <= 102400
  /\ Z.abs (1024 * n - 100 * bytes) <= 512.
Proof.
  intros Hb n. unfold formatSize.
  assert (E1 : (bytes <? 1024) = false) by (apply Z.ltb_ge; lia).
  assert (E2 : (bytes <? 1024 * 1024) = true) by (apply Z.ltb_lt; lia).
  rewrite E1, E2, toFixed2_quotient by lia.
  assert (En : (200 * bytes + 1024) / (2 * 1024) = n).
  { subst n. Z.to_euclidean_division_equations. lia. }
  rewrite En. split; [reflexivity|].
  subst n. Z.to_euclidean_division_equations. lia.
Qed.

(** X16. From 1 MiB on the size is shown in MB with two decimals: the
    figure is the nearest hundredth to [bytes / 1048576], at least 1.00. *)
Theorem formatSize_MB (bytes : Z) :
  1048576 <= bytes <= 9007199254740991 ->
  let n := (25 * bytes + 131072) / 262144 in
  formatSize bytes
  = ((string_of_Z (n / 100) ++ "." ++ two_digits (n mod 100)) ++ " MB")%string
  /\ 100 <= n
  /\ Z.abs (1048576 * n - 100 * bytes) <= 524288.
Proof.
  intros Hb n. unfold formatSize.
  assert (E1 : (bytes <? 1024) = false) by (apply Z.ltb_ge; lia).
  assert (E2 : (bytes <? 1024 * 1024) = false) by (apply Z.ltb_ge; lia).
  rewrite E1, E2, toFixed2_quotient by lia.
  assert (En : (200 * bytes + 1024 * 1024) / (2 * (1024 * 1024)) = n).
  { subst n. Z.to_euclidean_division_equations. lia. }
  rewrite En. split; [reflexivity|].
  subst n. Z.to_euclidean_division_equations. lia.
Qed.

(** X17. The last five sizes below 1 MiB are shown as [1024.00 KB], not
    in MB: the unit is chosen before the figure is rounded. *)
Theorem formatSize_1024_KB (bytes : Z) :
  1048571 <= bytes < 1048576 -> formatSize bytes = "1024.00 KB"%string.
Proof.
  intros Hb.
  assert (Hc : bytes = 1048571 \/ bytes = 1048572 \/ bytes = 1048573
               \/ bytes = 1048574 \/ bytes = 1048575) by lia.
  destruct Hc as [-> | [-> | [-> | [-> | ->]]]]; reflexivity.
Qed.

(** X18. Below 1 KiB the size is shown exactly: two different numbers of
    bytes are never shown as the same text. *)
Theorem formatSize_B_injective (a b : Z) :
  a < 1024 -> b < 1024 -> formatSize a = formatSize b -> a = b.
Proof.
  intros Ha Hb. unfold formatSize.
  assert (E1 : (a <? 1024) = true) by (apply Z.ltb_lt; lia).
  assert (E2 : (b <? 1024) = true) by (apply Z.ltb_lt; lia).
  rewrite E1, E2. intros E.
  apply string_of_Z_inj. exact (append_cancel_r _ _ _ E).
Qed.

End FormatSize.

(** ** More on the reduction shown *)

Section ReductionMore.

Lemma number_text_of_Z (p : Z) : number_text (Js.of_Z p) = string_of_Z p.
Proof. unfold Js.of_Z, number_text. rewrite Qfloor_Z. reflexivity. Qed.

(** X19. For sizes that numbers hold exactly, a positive original and a
    compressed size that is not negative, the reduction shown is an integer
    of at most 100, written in decimal; it is not negative when the result
    is not larger than the original, and it is negative when the result is
    larger by 1 % or more. *)
Theorem reduction_range (r : CompressedImage) :
  0 < originalSize r <= MAX_SAFE_INTEGER ->
  0 <= compressedSize r <= MAX_SAFE_INTEGER ->
  exists p,
    reduction r = Js.of_Z p
    /\ number_text (reduction r) = string_of_Z p
    /\ p <= 100
    /\ (compressedSize r <= originalSize r -> 0 <= p)
    /\ (101 * originalSize r <= 100 * compressedSize r -> p < 0).
Proof.
  intros Ho Hc.
  destruct (percentage_error _ _ Hc Ho) as (t & Et & Ht).
  destruct (rounded_percentage _ _ t Hc (proj1 Ho) Ht) as (_ & H100 & H0 & Hneg).
  exists (Js.Math_round t). unfold reduction. rewrite Et. cbn [Js.round].
  split; [reflexivity|]. split; [apply number_text_of_Z|]. auto.
Qed.

Context `{Platform}.

(** X20. For the result of compressing a file that is not empty, with a
    size and a data URL of a length that numbers hold exactly, the original
    size is positive, the compressed size is not negative, and the summary
    shows a finite percentage of at most 100. *)
Theorem result_reduction_finite (file : File.t) (r : CompressedImage) :
  compressImage file = Some r ->
  File.contents file <> [] ->
  File.size file <= MAX_SAFE_INTEGER ->
  str_length (compressedDataUrl r) <= MAX_SAFE_INTEGER ->
  0 < originalSize r
  /\ 0 <= compressedSize r
  /\ exists p, reduction r = Js.of_Z p /\ p <= 100.
Proof.
  intros Hc Hne Hsize Hlen.
  pose proof (compressedSize_nonneg file r Hc) as Hcs.
  destruct (compressImage_Some file r Hc) as (img & _ & _ & E).
  destruct (img_onload_fields file img) as (Ho & _ & Hcz).
  cbv zeta in Ho, Hcz. rewrite <- E in Ho, Hcz.
  assert (Hpos : 0 < originalSize r).
  { rewrite Ho. unfold File.size. destruct (File.contents file); [congruence|].
    cbn [List.length]. lia. }
  assert (Hcmax : compressedSize r <= MAX_SAFE_INTEGER).
  { rewrite Hcz, Math_round_div by lia.
    assert (0 <= str_length (compressedDataUrl r)) by (unfold str_length; lia).
    revert Hlen. unfold MAX_SAFE_INTEGER.
    generalize dependent (str_length (compressedDataUrl r)). intros L _ HL Hlen.
    Z.to_euclidean_division_equations. lia. }
  split; [exact Hpos|]. split; [exact Hcs|].
  assert (Homax : 0 < originalSize r <= MAX_SAFE_INTEGER) by (rewrite Ho in *; lia).
  destruct (percentage_error _ _ (conj Hcs Hcmax) Homax) as (t & Et & Ht).
  destruct (rounded_percentage _ _ t (conj Hcs Hcmax) Hpos Ht) as (_ & H100 & _).
  exists (Js.Math_round t). unfold reduction. rewrite Et.
  split; [reflexivity | exact H100].
Qed.

End ReductionMore.

(** ** The further theorems at concrete inputs *)

Lemma resize_never_upscales_witness :
  fst (resize 5000 3) <= 5000 /\ snd (resize 5000 3) <= 3.
Proof. apply (resize_never_upscales 5000 3); lia. Defined.

Lemma resize_zero_dimension_witness :
  snd (resize 2401 1) = 0 /\ snd (resize 2400 1) <> 0.
Proof.
  split.
  - apply (proj1 (resize_zero_dimension 2401 1 ltac:(lia) ltac:(lia))). lia.
  - intros Hz.
    apply (proj1 (resize_zero_dimension 2400 1 ltac:(lia) ltac:(lia))) in Hz. lia.
Defined.

Lemma resize_orientation_witness :
  fst (resize 2401 2400) >= snd (resize 2401 2400).
Proof. apply (proj1 (resize_orientation 2401 2400)). lia. Defined.

Lemma reachable_ok_witness :
  @World_ok Sample.browser (Sample.showing Sample.photo_result).
Proof.
  apply (@reachable_ok Sample.browser).
  apply (@run_from_initial Sample.browser Sample.photo). reflexivity.
Defined.

Lemma console_never_written_witness :
  console (ui (Sample.showing Sample.photo_result)) = [].
Proof.
  apply (@console_never_written Sample.browser initial).
  apply (@run_from_initial Sample.browser Sample.photo). reflexivity.
Defined.

Lemma image_never_cleared_witness :
  image (ui (handleFileChange (Some [Sample.notes])
               (Sample.showing Sample.photo_result))) <> None.
Proof.
  apply (@image_never_cleared Sample.browser (Sample.showing Sample.photo_result)).
  - eapply Relation_Operators.rt1n_trans;
      [apply (@step_change Sample.browser (Some [Sample.notes]))
      | apply Relation_Operators.rt1n_refl].
  - discriminate.
Defined.

Lemma displayed_result_consistent_witness :
  compressedSize Sample.photo_result
  = (3 * str_length (compressedDataUrl Sample.photo_result) + 2) / 4.
Proof.
  apply (@displayed_result_consistent Sample.browser
           (Sample.showing Sample.photo_result) Sample.photo_result).
  - apply (@run_from_initial Sample.browser Sample.photo). reflexivity.
  - reflexivity.
Defined.

Lemma downloads_of_results_witness :
  exists file r,
    @compressImage Sample.browser file = Some r
    /\ "data:image/jpeg;base64,/9j/4AAQSkZJRg=="%string = compressedDataUrl r
    /\ "compressed-photo.png"%string = ("compressed-" ++ File.name file)%string.
Proof.
  apply (@downloads_of_results Sample.browser
           (click_download (Sample.showing Sample.photo_result))
           {| href := "data:image/jpeg;base64,/9j/4AAQSkZJRg==";
              download := "compressed-photo.png" |}).
  - eapply (@steps_snoc Sample.browser).
    + apply (@run_from_initial Sample.browser Sample.photo). reflexivity.
    + apply (@step_download Sample.browser).
  - left. reflexivity.
Defined.

Lemma undecodable_spinner_stays_witness :
  label (render {| image := None; loading := true; console := [] |})
  = "Processing..."%string.
Proof.
  apply (@undecodable_spinner_stays Sample.browser
           (Some [Sample.notes]) Sample.notes initial
           {| ui := {| image := None; loading := true; console := [] |};
              pending := [Decoding Sample.notes "data:notes.txt"];
              downloads := [] |}).
  - constructor.
  - reflexivity.
  - intros src Hread. injection Hread as <-. reflexivity.
  - constructor.
  - eapply Relation_Operators.rt1n_trans; [|apply Relation_Operators.rt1n_refl].
    exact (@reader_onload Sample.browser
             (handleFileChange (Some [Sample.notes]) initial)
             [] Sample.notes [] "data:notes.txt" eq_refl eq_refl).
Defined.

Lemma last_to_finish_wins_witness :
  exists wm w',
    @callbacks Sample.browser
      (handleFileChange (Some [Sample.cat])
         (handleFileChange (Some [Sample.photo]) initial)) wm
    /\ pending wm = [Reading Sample.photo]
    /\ image (ui wm) = Some Sample.cat_result
    /\ @callbacks Sample.browser wm w'
    /\ pending w' = []
    /\ image (ui w') = Some Sample.photo_result.
Proof.
  apply (@last_to_finish_wins Sample.browser Sample.photo Sample.cat
           Sample.photo_result Sample.cat_result eq_refl eq_refl).
Defined.

Lemma loading_cleared_while_pending_witness :
  exists w',
    @callbacks Sample.browser
      (handleFileChange (Some [Sample.notes])
         (handleFileChange (Some [Sample.photo]) initial)) w'
    /\ loading (ui w') = false
    /\ label (render (ui w')) = "Click to upload an image"%string
    /\ pending w' = [Reading Sample.notes].
Proof.
  apply (@loading_cleared_while_pending Sample.browser Sample.photo Sample.notes
           Sample.photo_result eq_refl).
Defined.

Lemma decodable_resolves_witness :
  exists w',
    @callbacks Sample.browser (handleFileChange (Some [Sample.photo]) initial) w'
    /\ image (ui w') = Some Sample.photo_result
    /\ loading (ui w') = false
    /\ pending w' = [].
Proof.
  apply (@decodable_resolves Sample.browser (Some [Sample.photo]) Sample.photo
           Sample.photo_result initial eq_refl eq_refl eq_refl).
Defined.

Lemma formatSize_KB_witness : formatSize 1536 = "1.50 KB"%string.
Proof.
  rewrite (proj1 (formatSize_KB 1536 ltac:(lia))). reflexivity.
Defined.

Lemma formatSize_MB_witness : formatSize 5000000 = "4.77 MB"%string.
Proof.
  rewrite (proj1 (formatSize_MB 5000000 ltac:(lia))). reflexivity.
Defined.

Lemma formatSize_1024_KB_witness : formatSize 1048575 = "1024.00 KB"%string.
Proof. apply (formatSize_1024_KB 1048575). lia. Defined.

Lemma formatSize_B_injective_witness : 1000 = 1000.
Proof.
  apply (formatSize_B_injective 1000 1000); [lia | lia | reflexivity].
Defined.

Lemma reduction_range_witness :
  exists p,
    reduction {| originalSize := 1000; compressedSize := 1010;
                 compressedDataUrl := "data:"; name := "a.png" |} = Js.of_Z p
    /\ p < 0.
Proof.
  destruct (reduction_range
              {| originalSize := 1000; compressedSize := 1010;
                 compressedDataUrl := "data:"; name := "a.png" |}
              ltac:(cbn; unfold MAX_SAFE_INTEGER; lia)
              ltac:(cbn; unfold MAX_SAFE_INTEGER; lia))
    as (p & Hr & _ & _ & _ & Hneg).
  exists p. split; [exact Hr|]. apply Hneg. cbn. lia.
Defined.

Lemma result_reduction_finite_witness :
  0 < originalSize Sample.photo_result
  /\ 0 <= compressedSize Sample.photo_result
  /\ exists p, reduction Sample.photo_result = Js.of_Z p /\ p <= 100.
Proof.
  apply (@result_reduction_finite Sample.browser Sample.photo Sample.photo_result).
  - reflexivity.
  - discriminate.
  - vm_compute. discriminate.
  - vm_compute. discriminate.
Defined.
